(** * A separate-chaining hash table from [int] keys to [std::string] values

    Shallow embedding of [src/hash_table.cpp] (namespace [itis]) and the
    properties of its operations.

    Conventions of the model:
    - a C++ [int] is a [Z]; the counters of the table ([num_keys_], the
      capacity) are only incremented or doubled, and the model follows the
      code on every run that stays inside the [int] range (signed overflow
      is undefined behaviour in C++ and is not modelled);
    - a [double] is a primitive binary64 [float]; the comparisons and the
      division of the load-factor test are the IEEE operations;
    - a [Bucket] ([std::list<std::pair<int, std::string>>]) is a list of
      pairs, the bucket array ([std::vector<Bucket>]) a list of buckets
      read with [!!] and written with [<[ _ := _ ]>];
    - a constructor that throws returns [inl] of the exception. *)

From Stdlib Require Import ZArith String List Lia.
From Stdlib Require Import Floats.PrimFloat Numbers.Cyclic.Int63.Uint63.
From stdpp Require Import base list gmap strings.

Local Open Scope Z_scope.

#[local] Set Warnings "-clear-no-such-hyp".

(** ** Data model *)

Abbreviation Pair := (Z * string)%type (only parsing).
Abbreviation Bucket := (list (Z * string)) (only parsing).

Record HashTable : Type := mkHashTable {
  num_keys_ : Z;
  load_factor_ : float;
  buckets_ : list Bucket
}.

(** [std::logic_error], the exception of the constructor. *)
Inductive exception : Type :=
  | logic_error (what : string).

(** Modelled from the spec: the member initialiser of [num_keys_] is in the
    header [hash_table.hpp], which is not part of the sources; section 4.1
    sets the key count to 0 at construction. *)
Definition num_keys_init : Z := 0.

(** Modelled from the spec: the constant [kGrowthCoefficient] is declared in
    the header [hash_table.hpp], which is not part of the sources; section 3
    gives it the value 2. *)
Definition kGrowthCoefficient : Z := 2.

(** [static_cast<double>(n)] for an [int] n. *)
Definition double_of_int (n : Z) : float :=
  if n <? 0 then PrimFloat.opp (PrimFloat.of_uint63 (Uint63.of_Z (- n)))
  else PrimFloat.of_uint63 (Uint63.of_Z n).

(** [HashTable::HashTable(int capacity, double load_factor)]. *)
Definition HashTable_new (capacity : Z) (load_factor : float)
  : exception + HashTable :=
  if capacity <=? 0 then
    inl (logic_error "hash table capacity must be greater than zero")
  else if (PrimFloat.leb load_factor 0%float
           || PrimFloat.ltb 1%float load_factor)%bool then
    inl (logic_error "hash table load factor must be in range [0...1]")
  else
    inr {| num_keys_ := num_keys_init;
           load_factor_ := load_factor;
           buckets_ := replicate (Z.to_nat capacity) [] |}.

(** [HashTable::size], [HashTable::capacity], [HashTable::load_factor] and
    [HashTable::empty]. *)
Definition size (t : HashTable) : Z := num_keys_ t.

Definition capacity (t : HashTable) : Z := Z.of_nat (length (buckets_ t)).

Definition load_factor (t : HashTable) : float := load_factor_ t.

Definition empty (t : HashTable) : bool := size t =? 0.

(** [buckets[index]]; an index outside the array is undefined behaviour in
    the source and reads as the empty bucket here. *)
Definition bucket_at (buckets : list Bucket) (index : Z) : Bucket :=
  default [] (buckets !! Z.to_nat index).

(** The linear scan of [Search]: the value of the first pair with [key]. *)
Fixpoint scan (key : Z) (bucket : Bucket) : option string :=
  match bucket with
  | [] => None
  | kv :: rest => if kv.1 =? key then Some kv.2 else scan key rest
  end.

(** The loop of [Put] over the bucket: the first pair with [key] gets
    [value]; the flag tells whether there was one. *)
Fixpoint assign (key : Z) (value : string) (bucket : Bucket) : Bucket * bool :=
  match bucket with
  | [] => ([], false)
  | kv :: rest =>
      if kv.1 =? key then ((kv.1, value) :: rest, true)
      else let '(rest', flag) := assign key value rest in (kv :: rest', flag)
  end.

(** The loop of [Remove] over the bucket: the first pair with [key]. *)
Fixpoint first_pair (key : Z) (bucket : Bucket) : option Pair :=
  match bucket with
  | [] => None
  | kv :: rest => if kv.1 =? key then Some kv else first_pair key rest
  end.

(** [operator==] of [std::pair<int, std::string>]. *)
Definition pair_eqb (p q : Pair) : bool :=
  (p.1 =? q.1) && String.eqb p.2 q.2.

(** [std::list::remove]: every element equal to [p] goes. *)
Definition list_remove (p : Pair) (bucket : Bucket) : Bucket :=
  List.filter (fun q => negb (pair_eqb q p)) bucket.

(** The test [static_cast<double>(num_keys_) / capacity() >= load_factor_]. *)
Definition load_reached (num_keys cap : Z) (lf : float) : bool :=
  PrimFloat.leb lf (PrimFloat.div (double_of_int num_keys) (double_of_int cap)).

(** [HashTable::keys]: the two nested loops inserting into the set. *)
Definition keys (t : HashTable) : gset Z :=
  fold_left (fun acc bucket => fold_left (fun acc kv => {[ kv.1 ]} ∪ acc) bucket acc)
            (buckets_ t) ∅.

(** [HashTable::values]: the two nested loops pushing to the vector. *)
Definition values (t : HashTable) : list string :=
  fold_left (fun acc bucket => fold_left (fun acc kv => acc ++ [kv.2]) bucket acc)
            (buckets_ t) [].

(** All the pairs of the table, in bucket order. *)
Definition pairs (buckets : list Bucket) : list Pair := concat buckets.

(** The identity hash code (the [std::hash<int>] of the common standard
    libraries), used for the concrete runs. *)
Definition identity_hash (key : Z) : Z := key.

Section WithHash.

(** The integer hash code of a key, before its reduction to an index: any
    function of the key. *)
Variable hash_code : Z → Z.

(** Modelled from the spec: [utils::hash(key, size)] is declared in the
    header [hash_table.hpp], which is not part of the sources.  Section 4.1
    describes it as a deterministic integer hash of the key reduced modulo
    the length of the bucket array, with a result in [0, size). *)
Definition utils_hash (key size : Z) : Z := hash_code key mod size.

(** [HashTable::hash]. *)
Definition hash (t : HashTable) (key : Z) : Z := utils_hash key (capacity t).

(** [HashTable::Search]. *)
Definition Search (t : HashTable) (key : Z) : option string :=
  let index := hash t key in
  scan key (bucket_at (buckets_ t) index).

(** [HashTable::ContainsKey]. *)
Definition ContainsKey (t : HashTable) (key : Z) : bool :=
  bool_decide (is_Some (Search t key)).

(** The first half of [Put]: the pair is written into its bucket and the
    counter is incremented. *)
Definition put_pair (t : HashTable) (key : Z) (value : string) : HashTable :=
  let index := hash t key in
  let '(bucket, flag) := assign key value (bucket_at (buckets_ t) index) in
  let bucket := if flag then bucket else bucket ++ [(key, value)] in
  {| num_keys_ := num_keys_ t + 1;
     load_factor_ := load_factor_ t;
     buckets_ := <[Z.to_nat index := bucket]> (buckets_ t) |}.

(** The body of the resize loop of [Put] for one old bucket. *)
Definition relocate (new_buckets : list Bucket) (old : Bucket) : list Bucket :=
  match old with
  | [] => new_buckets
  | front :: _ =>
      let new_index := utils_hash front.1 (Z.of_nat (length new_buckets)) in
      <[Z.to_nat new_index := old]> new_buckets
  end.

(** The resize of [Put]: a new array, the loop, the assignment. *)
Definition rehash (buckets : list Bucket) : list Bucket :=
  let new_buckets :=
    replicate (Z.to_nat (Z.of_nat (length buckets) * kGrowthCoefficient)) [] in
  fold_left relocate buckets new_buckets.

(** The second half of [Put]: the load-factor test and the resize. *)
Definition grow (t : HashTable) : HashTable :=
  if load_reached (num_keys_ t) (capacity t) (load_factor_ t) then
    {| num_keys_ := num_keys_ t;
       load_factor_ := load_factor_ t;
       buckets_ := rehash (buckets_ t) |}
  else t.

(** [HashTable::Put]. *)
Definition Put (t : HashTable) (key : Z) (value : string) : HashTable :=
  grow (put_pair t key value).

(** [HashTable::Remove]: the returned optional and the table afterwards. *)
Definition Remove (t : HashTable) (key : Z) : option string * HashTable :=
  let index := hash t key in
  match first_pair key (bucket_at (buckets_ t) index) with
  | Some pair_to_remove =>
      (Some pair_to_remove.2,
       {| num_keys_ := num_keys_ t;
          load_factor_ := load_factor_ t;
          buckets_ := <[Z.to_nat index :=
                          list_remove pair_to_remove (bucket_at (buckets_ t) index)]>
                        (buckets_ t) |})
  | None => (None, t)
  end.

(** Calls of the two mutating operations, and runs of them. *)
Inductive op : Type :=
  | OpPut (key : Z) (value : string)
  | OpRemove (key : Z).

Definition apply_op (t : HashTable) (o : op) : HashTable :=
  match o with
  | OpPut key value => Put t key value
  | OpRemove key => (Remove t key).2
  end.

Definition run (t : HashTable) (ops : list op) : HashTable :=
  fold_left apply_op ops t.

Definition is_put (o : op) : bool :=
  match o with OpPut _ _ => true | OpRemove _ => false end.

(** A table is reachable when a run of [Put] and [Remove] calls on a
    freshly constructed table ends in it. *)
Definition reachable (t : HashTable) : Prop :=
  ∃ cap lf t0 ops, HashTable_new cap lf = inr t0 ∧ t = run t0 ops.

(** A run of [Put] calls only. *)
Definition puts (t : HashTable) (kvs : list Pair) : HashTable :=
  fold_left (fun t kv => Put t kv.1 kv.2) kvs t.

Definition reachable_by_puts (t : HashTable) : Prop :=
  ∃ cap lf t0 kvs, HashTable_new cap lf = inr t0 ∧ t = puts t0 kvs.

(** The reference behaviour of a map under one call, for the lookup of
    [key]: a [Put] on the key gives its value, a [Remove] of the key gives
    nothing, any other call leaves the result of the lookup as it was. *)
Definition op_result (key : Z) (o : op) (before : option string) : option string :=
  match o with
  | OpPut k value => if k =? key then Some value else before
  | OpRemove k => if k =? key then None else before
  end.

(** The reference lookup after a run: the last call on the key decides. *)
Definition map_lookup (key : Z) (ops : list op) (before : option string)
  : option string :=
  fold_left (fun result o => op_result key o result) ops before.

(** ** Invariants of the reachable tables *)

(** The keys of one bucket are pairwise distinct. *)
Definition buckets_nodup (buckets : list Bucket) : Prop :=
  Forall (fun bucket : Bucket => NoDup bucket.*1) buckets.

(** A non-empty bucket sits at the index of its first key. *)
Definition fronts_placed (buckets : list Bucket) : Prop :=
  ∀ (i : nat) front rest,
    buckets !! i = Some (front :: rest) →
    utils_hash front.1 (Z.of_nat (length buckets)) = Z.of_nat i.

(** The index the resize gives to an old bucket whose first pair is
    [front], for an old array of [n] buckets. *)
Definition new_index (n : nat) (front : Pair) : nat :=
  Z.to_nat (utils_hash front.1 (Z.of_nat n * kGrowthCoefficient)).

(** ** The bucket array keeps its length, except in the resize *)

Lemma relocate_length new_buckets old :
  length (relocate new_buckets old) = length new_buckets.
Proof. destruct old as [|front rest]; simpl; [done|]. by rewrite length_insert. Qed.

Lemma fold_relocate_length buckets new_buckets :
  length (fold_left relocate buckets new_buckets) = length new_buckets.
Proof.
  revert new_buckets. induction buckets as [|b bs IH]; intros nb; simpl; [done|].
  by rewrite IH, relocate_length.
Qed.

Lemma rehash_length buckets :
  length (rehash buckets) = (length buckets * 2)%nat.
Proof.
  unfold rehash. rewrite fold_relocate_length, length_replicate.
  unfold kGrowthCoefficient. lia.
Qed.

Lemma put_pair_length t key value :
  length (buckets_ (put_pair t key value)) = length (buckets_ t).
Proof.
  unfold put_pair. destruct (assign _ _ _) as [bucket flag]. simpl.
  by rewrite length_insert.
Qed.

Lemma put_pair_num_keys t key value :
  num_keys_ (put_pair t key value) = num_keys_ t + 1.
Proof. unfold put_pair. by destruct (assign _ _ _). Qed.

Lemma put_pair_load_factor t key value :
  load_factor_ (put_pair t key value) = load_factor_ t.
Proof. unfold put_pair. by destruct (assign _ _ _). Qed.

Lemma grow_num_keys t : num_keys_ (grow t) = num_keys_ t.
Proof. unfold grow. by destruct (load_reached _ _ _). Qed.

Lemma grow_load_factor t : load_factor_ (grow t) = load_factor_ t.
Proof. unfold grow. by destruct (load_reached _ _ _). Qed.

Lemma Remove_length t key :
  length (buckets_ (Remove t key).2) = length (buckets_ t).
Proof.
  unfold Remove. destruct (first_pair _ _); simpl; [|done].
  by rewrite length_insert.
Qed.

Lemma Remove_num_keys t key : num_keys_ (Remove t key).2 = num_keys_ t.
Proof. unfold Remove. by destruct (first_pair _ _). Qed.

Lemma Put_num_keys t key value : num_keys_ (Put t key value) = num_keys_ t + 1.
Proof. unfold Put. by rewrite grow_num_keys, put_pair_num_keys. Qed.

Lemma Put_length_pos t key value :
  (0 < length (buckets_ t))%nat → (0 < length (buckets_ (Put t key value)))%nat.
Proof.
  intros Hpos. unfold Put, grow.
  destruct (load_reached _ _ _); simpl;
    rewrite ?rehash_length, put_pair_length; lia.
Qed.

Lemma apply_op_length_pos t o :
  (0 < length (buckets_ t))%nat → (0 < length (buckets_ (apply_op t o)))%nat.
Proof.
  destruct o as [key value|key]; simpl.
  - apply Put_length_pos.
  - by rewrite Remove_length.
Qed.

Lemma run_length_pos ops t :
  (0 < length (buckets_ t))%nat → (0 < length (buckets_ (run t ops)))%nat.
Proof.
  revert t. induction ops as [|o ops IH]; intros t Hpos; simpl; [done|].
  by apply IH, apply_op_length_pos.
Qed.

Lemma HashTable_new_inr cap lf t0 :
  HashTable_new cap lf = inr t0 →
  0 < cap ∧ t0 = {| num_keys_ := 0; load_factor_ := lf;
                    buckets_ := replicate (Z.to_nat cap) [] |}.
Proof.
  unfold HashTable_new. destruct (Z.leb_spec cap 0); [done|].
  destruct (_ || _)%bool; [done|]. intros [= <-]. done.
Qed.

Lemma reachable_length_pos t : reachable t → (0 < length (buckets_ t))%nat.
Proof.
  intros (cap & lf & t0 & ops & Hnew & ->). apply run_length_pos.
  apply HashTable_new_inr in Hnew as [Hcap ->]. simpl.
  rewrite length_replicate. lia.
Qed.

(** ** Construction *)

(** C6: construction with a capacity that is zero or negative fails with the
    logic error of the capacity; with a positive capacity, a load factor
    that is zero, negative or greater than 1.0 fails with the logic error of
    the load factor; a load factor of exactly 1.0 is accepted; every
    successful construction gives [capacity] empty buckets, a key count of 0
    and the load factor it was given. *)
Theorem HashTable_new_spec (cap : Z) (lf : float) :
  (cap ≤ 0 →
   HashTable_new cap lf
   = inl (logic_error "hash table capacity must be greater than zero"))
  ∧ (PrimFloat.leb lf 0%float = true ∨ PrimFloat.ltb 1%float lf = true →
     ∃ what, HashTable_new cap lf = inl (logic_error what))
  ∧ (0 < cap →
     PrimFloat.leb lf 0%float = true ∨ PrimFloat.ltb 1%float lf = true →
     HashTable_new cap lf
     = inl (logic_error "hash table load factor must be in range [0...1]"))
  ∧ (0 < cap → ∃ t, HashTable_new cap 1%float = inr t)
  ∧ (∀ t, HashTable_new cap lf = inr t →
       buckets_ t = replicate (Z.to_nat cap) []
       ∧ capacity t = cap
       ∧ Forall (fun bucket => bucket = []) (buckets_ t)
       ∧ size t = 0
       ∧ load_factor t = lf).
Proof.
  unfold HashTable_new. repeat split.
  - intros Hcap. destruct (Z.leb_spec cap 0); [done|lia].
  - intros Hlf. destruct (cap <=? 0); [by eexists|].
    destruct Hlf as [-> | ->]; simpl; rewrite ?orb_true_r; by eexists.
  - intros Hcap Hlf. destruct (Z.leb_spec cap 0); [lia|].
    destruct Hlf as [-> | ->]; simpl; by rewrite ?orb_true_r.
  - intros Hcap. destruct (Z.leb_spec cap 0); [lia|]. by eexists.
  - revert H. destruct (Z.leb_spec cap 0); [done|].
    destruct (_ || _)%bool; [done|]. by intros [= <-].
  - revert H. destruct (Z.leb_spec cap 0); [done|].
    destruct (_ || _)%bool; [done|]. intros [= <-].
    unfold capacity. simpl. rewrite length_replicate. lia.
  - revert H. destruct (Z.leb_spec cap 0); [done|].
    destruct (_ || _)%bool; [done|]. intros [= <-]. simpl.
    apply Forall_forall. intros b Hb. by apply elem_of_replicate in Hb as [-> _].
  - revert H. destruct (Z.leb_spec cap 0); [done|].
    destruct (_ || _)%bool; [done|]. by intros [= <-].
  - revert H. destruct (Z.leb_spec cap 0); [done|].
    destruct (_ || _)%bool; [done|]. by intros [= <-].
Qed.

(** ** The hash index *)

(** C8: in every reachable table the index computed for a key lies in
    [0, capacity), so the bucket that [Search], [Put] and [Remove] read at
    that index exists. *)
Theorem hash_in_bounds (t : HashTable) (key : Z) :
  reachable t →
  0 ≤ hash t key < capacity t
  ∧ is_Some (buckets_ t !! Z.to_nat (hash t key)).
Proof.
  intros Hpos%reachable_length_pos.
  assert (0 ≤ hash t key < capacity t) as Hin.
  { unfold hash, utils_hash, capacity. apply Z.mod_pos_bound. lia. }
  split; [done|]. apply lookup_lt_is_Some. unfold capacity in Hin. lia.
Qed.

(** ** The key counter *)

Lemma run_num_keys ops t :
  num_keys_ (run t ops) = num_keys_ t + Z.of_nat (length (List.filter is_put ops)).
Proof.
  revert t. induction ops as [|o ops IH]; intros t; simpl; [lia|].
  rewrite IH. destruct o as [key value|key]; simpl.
  - rewrite Put_num_keys. lia.
  - by rewrite Remove_num_keys.
Qed.

(** C5: after a run of [Put] and [Remove] calls on a freshly constructed
    table, [size()] is the number of [Put] calls of the run; one [Put] adds
    one to it whatever the key, and [Remove] leaves it as it is. *)
Theorem size_counts_puts (cap : Z) (lf : float) (t0 : HashTable) (ops : list op) :
  HashTable_new cap lf = inr t0 →
  size (run t0 ops) = Z.of_nat (length (List.filter is_put ops))
  ∧ (∀ t key value, size (Put t key value) = size t + 1)
  ∧ (∀ t key, size (Remove t key).2 = size t).
Proof.
  intros [_ ->]%HashTable_new_inr. unfold size. split; [|split].
  - rewrite run_num_keys. simpl. lia.
  - intros. apply Put_num_keys.
  - intros. apply Remove_num_keys.
Qed.

(** ** Growth *)

(** C3: [Put] adds one to the key count; when the new count divided by the
    capacity (as doubles) reaches the load factor, the capacity at the
    return of [Put] is the old one times the growth coefficient 2, and
    otherwise it is the old one. *)
Theorem Put_capacity (t : HashTable) (key : Z) (value : string) :
  size (Put t key value) = size t + 1
  ∧ capacity (Put t key value)
    = if PrimFloat.leb (load_factor t)
           (PrimFloat.div (double_of_int (size t + 1)) (double_of_int (capacity t)))
      then capacity t * 2
      else capacity t.
Proof.
  split; [apply Put_num_keys|].
  unfold Put, grow, load_reached, load_factor, size, capacity.
  rewrite put_pair_num_keys, put_pair_load_factor, put_pair_length.
  destruct (PrimFloat.leb _ _); simpl.
  - rewrite rehash_length, put_pair_length. lia.
  - by rewrite put_pair_length.
Qed.

(** ** The loops over one bucket *)

Lemma assign_keys key value bucket : (assign key value bucket).1.*1 = bucket.*1.
Proof.
  induction bucket as [|kv rest IH]; simpl; [done|].
  destruct (kv.1 =? key); simpl; [done|].
  destruct (assign key value rest) as [rest' flag]. simpl in *.
  f_equal. exact IH.
Qed.

Lemma assign_length key value bucket :
  length (assign key value bucket).1 = length bucket.
Proof.
  rewrite <- (length_fmap fst), assign_keys. apply length_fmap.
Qed.

Lemma assign_flag key value bucket :
  (assign key value bucket).2 = true ↔ key ∈ bucket.*1.
Proof.
  induction bucket as [|kv rest IH]; simpl.
  - split; [done|]. by intros ?%elem_of_nil.
  - destruct (Z.eqb_spec kv.1 key) as [Heq|Hne]; simpl.
    + split; [|done]. intros _. rewrite Heq. apply list_elem_of_here.
    + destruct (assign key value rest) as [rest' flag]. simpl in *.
      rewrite IH. rewrite elem_of_cons. naive_solver.
Qed.

Lemma first_pair_Some key bucket kv :
  first_pair key bucket = Some kv →
  kv.1 = key ∧ ∃ l1 l2, bucket = l1 ++ kv :: l2 ∧ key ∉ l1.*1.
Proof.
  induction bucket as [|p rest IH]; simpl; [done|].
  destruct (Z.eqb_spec p.1 key) as [Heq|Hne].
  - intros [= ->]. split; [done|]. exists [], rest. split; [done|].
    by intros ?%elem_of_nil.
  - intros [Hk (l1 & l2 & -> & Hl1)]%IH. split; [done|].
    exists (p :: l1), l2. split; [done|].
    rewrite ?fmap_cons, elem_of_cons. naive_solver.
Qed.

Lemma first_pair_None key bucket :
  first_pair key bucket = None ↔ key ∉ bucket.*1.
Proof.
  induction bucket as [|p rest IH]; csimpl.
  - split; [|done]. intros _ ?%elem_of_nil. done.
  - rewrite ?fmap_cons, not_elem_of_cons.
    destruct (Z.eqb_spec p.1 key) as [Heq|Hne]; naive_solver.
Qed.

Lemma scan_first_pair key bucket : scan key bucket = snd <$> first_pair key bucket.
Proof.
  induction bucket as [|p rest IH]; csimpl; [done|]. by destruct (p.1 =? key).
Qed.

Lemma pair_eqb_eq (p q : Pair) : pair_eqb p q = true ↔ p = q.
Proof.
  unfold pair_eqb. destruct p as [k v], q as [k' v']. simpl.
  rewrite andb_true_iff, Z.eqb_eq, String.eqb_eq. naive_solver.
Qed.

Lemma list_remove_length p bucket :
  (length (list_remove p bucket) ≤ length bucket)%nat.
Proof.
  unfold list_remove. induction bucket as [|q rest IH]; csimpl; [done|].
  destruct (negb _); simpl; lia.
Qed.

Lemma list_remove_keys_sub p bucket k :
  k ∈ (list_remove p bucket).*1 → k ∈ bucket.*1.
Proof.
  unfold list_remove. induction bucket as [|q rest IH]; csimpl; [done|].
  destruct (negb _); rewrite ?fmap_cons, !elem_of_cons; naive_solver.
Qed.

Lemma list_remove_nodup p bucket :
  NoDup bucket.*1 → NoDup (list_remove p bucket).*1.
Proof.
  induction bucket as [|q rest IH]; csimpl; [done|].
  rewrite ?fmap_cons, NoDup_cons. intros [Hq Hrest].
  change (List.filter _ (q :: rest)) with (list_remove p (q :: rest)).
  unfold list_remove. csimpl. fold (list_remove p rest).
  destruct (negb _).
  - rewrite ?fmap_cons, NoDup_cons. split; [|by apply IH].
    intros Hin%list_remove_keys_sub. done.
  - by apply IH.
Qed.

(** Removing the pair found by the loop from a bucket with distinct keys
    takes out exactly that pair. *)
Lemma list_remove_split (l1 l2 : Bucket) (kv : Pair) :
  NoDup (l1 ++ kv :: l2).*1 → list_remove kv (l1 ++ kv :: l2) = l1 ++ l2.
Proof.
  intros Hnd.
  assert (∀ l : Bucket, kv.1 ∉ l.*1 → list_remove kv l = l) as Hkeep.
  { induction l as [|q rest IH]; csimpl; [done|].
    rewrite ?fmap_cons, not_elem_of_cons. intros [Hq Hrest].
    unfold list_remove. csimpl. fold (list_remove kv rest).
    destruct (pair_eqb q kv) eqn:Heq.
    - apply pair_eqb_eq in Heq. by subst.
    - simpl. by rewrite IH. }
  rewrite fmap_app, fmap_cons in Hnd.
  apply NoDup_app in Hnd as (_ & Hl1 & [Hl2 _]%NoDup_cons).
  unfold list_remove. rewrite List.filter_app. simpl.
  fold (list_remove kv l1) (list_remove kv l2).
  assert (pair_eqb kv kv = true) as -> by by apply pair_eqb_eq.
  simpl. rewrite !Hkeep; [done|done|].
  intros Hin. apply (Hl1 _ Hin). apply list_elem_of_here.
Qed.

(** ** Counting the stored pairs *)

Lemma pairs_insert_length (buckets : list Bucket) (i : nat) (b b0 : Bucket) :
  buckets !! i = Some b0 →
  (length (pairs (<[i:=b]> buckets)) + length b0
   = length (pairs buckets) + length b)%nat.
Proof.
  unfold pairs. revert i. induction buckets as [|x bs IH]; intros i; [done|].
  destruct i as [|i]; simpl.
  - intros [= ->]. rewrite !length_app. lia.
  - intros Hi. specialize (IH i Hi). rewrite !length_app. lia.
Qed.

Lemma pairs_insert_le (buckets : list Bucket) (i : nat) (b : Bucket) :
  (length (pairs (<[i:=b]> buckets)) ≤ length (pairs buckets) + length b)%nat.
Proof.
  destruct (buckets !! i) as [b0|] eqn:Hi.
  - pose proof (pairs_insert_length buckets i b b0 Hi). lia.
  - apply lookup_ge_None in Hi. rewrite list_insert_ge by done. lia.
Qed.

Lemma pairs_replicate_nil n : pairs (replicate n []) = [].
Proof. unfold pairs. induction n as [|n IH]; simpl; done. Qed.

Lemma put_pair_pairs_length t key value :
  (length (pairs (buckets_ (put_pair t key value)))
   ≤ length (pairs (buckets_ t)) + 1)%nat.
Proof.
  unfold put_pair, bucket_at.
  destruct (buckets_ t !! Z.to_nat (hash t key)) as [b0|] eqn:Hi; simpl.
  - pose proof (assign_length key value b0) as Hlen.
    destruct (assign key value b0) as [bucket flag]. simpl in *.
    match goal with |- context [<[_:=?b]> _] => 
      pose proof (pairs_insert_length (buckets_ t) _ b b0 Hi) as Hins;
      assert (length b ≤ length b0 + 1)%nat
    end.
    { destruct flag; rewrite ?length_app; simpl; lia. }
    lia.
  - apply lookup_ge_None in Hi. rewrite list_insert_ge by done. lia.
Qed.

Lemma fold_relocate_pairs_length buckets new_buckets :
  (length (pairs (fold_left relocate buckets new_buckets))
   ≤ length (pairs new_buckets) + length (pairs buckets))%nat.
Proof.
  revert new_buckets. induction buckets as [|b bs IH]; intros nb; simpl; [lia|].
  specialize (IH (relocate nb b)).
  assert (length (pairs (relocate nb b)) ≤ length (pairs nb) + length b)%nat.
  { destruct b as [|front rest]; simpl; [lia|]. apply pairs_insert_le. }
  change (pairs (b :: bs)) with (b ++ pairs bs). rewrite length_app. lia.
Qed.

Lemma rehash_pairs_length buckets :
  (length (pairs (rehash buckets)) ≤ length (pairs buckets))%nat.
Proof.
  unfold rehash. etrans; [apply fold_relocate_pairs_length|].
  by rewrite pairs_replicate_nil.
Qed.

Lemma Put_pairs_length t key value :
  (length (pairs (buckets_ (Put t key value)))
   ≤ length (pairs (buckets_ t)) + 1)%nat.
Proof.
  unfold Put, grow. destruct (load_reached _ _ _); simpl.
  - etrans; [apply rehash_pairs_length|]. apply put_pair_pairs_length.
  - apply put_pair_pairs_length.
Qed.

Lemma Remove_pairs_length t key :
  (length (pairs (buckets_ (Remove t key).2))
   ≤ length (pairs (buckets_ t)))%nat.
Proof.
  unfold Remove, bucket_at.
  destruct (buckets_ t !! Z.to_nat (hash t key)) as [b0|] eqn:Hi; simpl.
  - destruct (first_pair key b0) as [kv|]; simpl; [|done].
    pose proof (pairs_insert_length (buckets_ t) _ (list_remove kv b0) b0 Hi).
    pose proof (list_remove_length kv b0). lia.
  - done.
Qed.

Lemma run_pairs_length ops t :
  Z.of_nat (length (pairs (buckets_ t))) ≤ num_keys_ t →
  Z.of_nat (length (pairs (buckets_ (run t ops)))) ≤ num_keys_ (run t ops).
Proof.
  revert t. induction ops as [|o ops IH]; intros t Hle; simpl; [done|].
  apply IH. destruct o as [key value|key]; simpl.
  - rewrite Put_num_keys. pose proof (Put_pairs_length t key value). lia.
  - rewrite Remove_num_keys. pose proof (Remove_pairs_length t key). lia.
Qed.

(** ** The key set and the value list *)

Lemma keys_loop (bucket : Bucket) (acc : gset Z) :
  fold_left (fun acc kv => {[ kv.1 ]} ∪ acc) bucket acc
  = list_to_set bucket.*1 ∪ acc.
Proof.
  revert acc. induction bucket as [|kv rest IH]; intros acc; csimpl.
  - set_solver.
  - rewrite IH. set_solver.
Qed.

Lemma keys_pairs t : keys t = list_to_set (pairs (buckets_ t)).*1.
Proof.
  unfold keys.
  assert (∀ (bs : list Bucket) (acc : gset Z),
    fold_left (fun acc bucket =>
                 fold_left (fun acc kv => {[ kv.1 ]} ∪ acc) bucket acc) bs acc
    = list_to_set (pairs bs).*1 ∪ acc) as Hloop.
  { induction bs as [|b bs IH]; intros acc; simpl.
    - set_solver.
    - rewrite IH, keys_loop. change (pairs (b :: bs)) with (b ++ pairs bs).
      rewrite fmap_app, list_to_set_app_L. set_solver. }
  rewrite Hloop. set_solver.
Qed.

Lemma values_loop (bucket : Bucket) (acc : list string) :
  fold_left (fun acc kv => acc ++ [kv.2]) bucket acc = acc ++ bucket.*2.
Proof.
  revert acc. induction bucket as [|kv rest IH]; intros acc; csimpl.
  - by rewrite app_nil_r.
  - by rewrite IH, <- app_assoc.
Qed.

Lemma values_pairs t : values t = (pairs (buckets_ t)).*2.
Proof.
  unfold values.
  assert (∀ (bs : list Bucket) (acc : list string),
    fold_left (fun acc bucket =>
                 fold_left (fun acc kv => acc ++ [kv.2]) bucket acc) bs acc
    = acc ++ (pairs bs).*2) as Hloop.
  { induction bs as [|b bs IH]; intros acc; simpl.
    - by rewrite app_nil_r.
    - rewrite IH, values_loop. change (pairs (b :: bs)) with (b ++ pairs bs).
      by rewrite fmap_app, app_assoc. }
  by rewrite Hloop.
Qed.

Lemma size_list_to_set_le (l : list Z) :
  (base.size (list_to_set l : gset Z) ≤ length l)%nat.
Proof.
  induction l as [|x l IH].
  - by rewrite list_to_set_nil, size_empty.
  - rewrite list_to_set_cons, size_union_alt, size_singleton. cbn [length].
    assert (base.size (list_to_set l ∖ {[x]} : gset Z)
            ≤ base.size (list_to_set l : gset Z))%nat
      by (apply subseteq_size; set_solver).
    lia.
Qed.

(** C10: in every reachable table the number of stored pairs, and with it
    the number of keys in [keys()], is at most [size()]. *)
Theorem stored_pairs_le_size (t : HashTable) :
  reachable t →
  Z.of_nat (base.size (keys t)) ≤ Z.of_nat (length (pairs (buckets_ t)))
  ∧ Z.of_nat (length (pairs (buckets_ t))) ≤ size t.
Proof.
  intros (cap & lf & t0 & ops & Hnew & ->). split.
  - rewrite keys_pairs.
    pose proof (size_list_to_set_le (pairs (buckets_ (run t0 ops))).*1) as Hle.
    rewrite length_fmap in Hle. lia.
  - apply run_pairs_length.
    apply HashTable_new_inr in Hnew as [_ ->]. simpl.
    by rewrite pairs_replicate_nil.
Qed.

(** ** Distinct keys inside each bucket *)

Lemma fold_relocate_Forall (P : Bucket → Prop) buckets new_buckets :
  Forall P buckets → Forall P new_buckets →
  Forall P (fold_left relocate buckets new_buckets).
Proof.
  revert new_buckets. induction buckets as [|b bs IH]; intros nb Hbs Hnb; simpl; [done|].
  apply Forall_cons in Hbs as [Hb Hbs]. apply IH; [done|].
  destruct b as [|front rest]; simpl; [done|]. by apply Forall_insert.
Qed.

Lemma rehash_nodup buckets : buckets_nodup buckets → buckets_nodup (rehash buckets).
Proof.
  intros Hnd. apply fold_relocate_Forall; [done|].
  apply Forall_forall. intros b [-> _]%elem_of_replicate. constructor.
Qed.

Lemma bucket_at_nodup buckets index :
  buckets_nodup buckets → NoDup (bucket_at buckets index).*1.
Proof.
  intros Hnd. unfold bucket_at.
  destruct (buckets !! Z.to_nat index) as [b|] eqn:Hi; simpl; [|constructor].
  eapply Forall_lookup_1 in Hnd; [|done]. done.
Qed.

Lemma put_pair_nodup t key value :
  buckets_nodup (buckets_ t) → buckets_nodup (buckets_ (put_pair t key value)).
Proof.
  intros Hnd. unfold put_pair.
  pose proof (bucket_at_nodup _ (hash t key) Hnd) as Hb.
  pose proof (assign_keys key value (bucket_at (buckets_ t) (hash t key))) as Hkeys.
  pose proof (assign_flag key value (bucket_at (buckets_ t) (hash t key))) as Hflag.
  destruct (assign _ _ _) as [bucket flag]. simpl in *.
  apply Forall_insert; [done|]. destruct flag.
  - by rewrite Hkeys.
  - rewrite fmap_app, Hkeys. apply NoDup_app. split; [done|]. split.
    + intros k Hk [->|[]%elem_of_nil]%elem_of_cons.
      apply Hflag in Hk. done.
    + apply NoDup_singleton.
Qed.

Lemma Put_nodup t key value :
  buckets_nodup (buckets_ t) → buckets_nodup (buckets_ (Put t key value)).
Proof.
  intros Hnd%(put_pair_nodup _ key value). unfold Put, grow.
  destruct (load_reached _ _ _); simpl; [|done]. by apply rehash_nodup.
Qed.

Lemma Remove_nodup t key :
  buckets_nodup (buckets_ t) → buckets_nodup (buckets_ (Remove t key).2).
Proof.
  intros Hnd. unfold Remove.
  destruct (first_pair _ _) as [kv|]; simpl; [|done].
  apply Forall_insert; [done|]. by apply list_remove_nodup, bucket_at_nodup.
Qed.

Lemma run_nodup ops t :
  buckets_nodup (buckets_ t) → buckets_nodup (buckets_ (run t ops)).
Proof.
  revert t. induction ops as [|o ops IH]; intros t Hnd; simpl; [done|].
  apply IH. destruct o as [key value|key]; simpl.
  - by apply Put_nodup.
  - by apply Remove_nodup.
Qed.

Lemma reachable_nodup t : reachable t → buckets_nodup (buckets_ t).
Proof.
  intros (cap & lf & t0 & ops & Hnew & ->). apply run_nodup.
  apply HashTable_new_inr in Hnew as [_ ->]. simpl.
  apply Forall_forall. intros b [-> _]%elem_of_replicate. constructor.
Qed.

(** ** Removal *)

(** C7: in a reachable table, when the bucket at the index of [key] holds a
    pair with that key, [Remove] returns the value of the pair and takes
    exactly this pair out of the bucket, the rest of the table staying as it
    was; when the bucket holds no such pair, [Remove] returns no value and
    the table is unchanged. *)
Theorem Remove_spec (t : HashTable) (key : Z) :
  reachable t →
  let bucket := bucket_at (buckets_ t) (hash t key) in
  (key ∈ bucket.*1 →
   ∃ value l1 l2,
     bucket = l1 ++ (key, value) :: l2
     ∧ (key ∉ (l1 ++ l2).*1)
     ∧ Remove t key
       = (Some value,
          {| num_keys_ := num_keys_ t;
             load_factor_ := load_factor_ t;
             buckets_ := <[Z.to_nat (hash t key) := (l1 ++ l2)]> (buckets_ t) |}))
  ∧ (key ∉ bucket.*1 → Remove t key = (None, t)).
Proof.
  intros Hreach bucket. pose proof (reachable_nodup t Hreach) as Hnd.
  pose proof (bucket_at_nodup _ (hash t key) Hnd) as Hb. fold bucket in Hb.
  split.
  - intros Hin. unfold Remove. fold bucket.
    destruct (first_pair key bucket) as [kv|] eqn:Hfirst.
    + apply first_pair_Some in Hfirst as (Hk & l1 & l2 & Hsplit & Hl1).
      destruct kv as [k value]. simpl in Hk. subst k.
      exists value, l1, l2. split; [done|].
      rewrite Hsplit in Hb. split.
      * rewrite fmap_app, fmap_cons in Hb.
        apply NoDup_app in Hb as (_ & Hdisj & [Hl2 _]%NoDup_cons).
        rewrite fmap_app, elem_of_app. intros [Hin1|Hin2]; [done|].
        simpl in Hl2. done.
      * simpl. do 3 f_equal. rewrite Hsplit. by apply list_remove_split.
    + apply first_pair_None in Hfirst. done.
  - intros Hnot%first_pair_None. unfold Remove. fold bucket. by rewrite Hnot.
Qed.

(** ** The resize loop *)

Lemma utils_hash_range key n : 0 < n → 0 ≤ utils_hash key n < n.
Proof. intros Hn. unfold utils_hash. by apply Z.mod_pos_bound. Qed.

(** What the loop leaves at an index is what was there before it, or a
    whole non-empty old bucket whose first key is hashed to this index. *)
Lemma fold_relocate_lookup buckets new_buckets (j : nat) (b : Bucket) :
  fold_left relocate buckets new_buckets !! j = Some b →
  new_buckets !! j = Some b
  ∨ (b ∈ buckets
     ∧ ∃ front rest, b = front :: rest
       ∧ Z.to_nat (utils_hash front.1 (Z.of_nat (length new_buckets))) = j).
Proof.
  revert new_buckets. induction buckets as [|x bs IH]; intros nb; simpl; [by left|].
  intros [Hj|(Hin & front & rest & -> & Hidx)]%IH.
  - destruct x as [|front rest]; simpl in Hj; [by left|].
    apply list_lookup_insert_Some in Hj as [(<- & <- & _)|[_ Hj]]; [|by left].
    right. split; [apply list_elem_of_here|]. by exists front, rest.
  - right. split; [by apply list_elem_of_further|].
    exists front, rest. by rewrite relocate_length in Hidx.
Qed.

(** An index that no later bucket is sent to keeps its content. *)
Lemma fold_relocate_kept buckets new_buckets (j : nat) :
  (∀ front rest, front :: rest ∈ buckets →
     Z.to_nat (utils_hash front.1 (Z.of_nat (length new_buckets))) ≠ j) →
  fold_left relocate buckets new_buckets !! j = new_buckets !! j.
Proof.
  revert new_buckets. induction buckets as [|x bs IH]; intros nb Hne; simpl; [done|].
  rewrite IH.
  - destruct x as [|front rest]; simpl; [done|].
    apply list_lookup_insert_ne, (Hne front rest), list_elem_of_here.
  - intros front rest Hin. rewrite relocate_length.
    by apply (Hne front rest), list_elem_of_further.
Qed.

(** The index of a written bucket holds a non-empty old bucket with the
    same destination at the end of the loop: this one, or one written
    later. *)
Lemma fold_relocate_written buckets new_buckets front rest :
  front :: rest ∈ buckets →
  (0 < length new_buckets)%nat →
  ∃ front' rest',
    fold_left relocate buckets new_buckets
      !! Z.to_nat (utils_hash front.1 (Z.of_nat (length new_buckets)))
    = Some (front' :: rest')
    ∧ front' :: rest' ∈ buckets
    ∧ utils_hash front'.1 (Z.of_nat (length new_buckets))
      = utils_hash front.1 (Z.of_nat (length new_buckets)).
Proof.
  revert new_buckets. induction buckets as [|x bs IH]; intros nb Hin Hpos.
  { by apply elem_of_nil in Hin. }
  destruct (decide (front :: rest ∈ bs)) as [Hbs|Hbs].
  - destruct (IH (relocate nb x) Hbs) as (front' & rest' & Hlook & Hin' & Heq).
    { by rewrite relocate_length. }
    rewrite relocate_length in Hlook, Heq.
    exists front', rest'. split; [done|]. split; [by apply list_elem_of_further|done].
  - apply elem_of_cons in Hin as [<-|?]; [|done]. simpl.
    set (n := Z.of_nat (length nb)).
    set (idx := Z.to_nat (utils_hash front.1 n)).
    assert (idx < length nb)%nat as Hlt.
    { pose proof (utils_hash_range front.1 n). unfold idx, n in *. lia. }
    assert (is_Some (fold_left relocate bs (<[idx:=front :: rest]> nb) !! idx))
      as [b Hb].
    { apply lookup_lt_is_Some. by rewrite fold_relocate_length, length_insert. }
    rewrite Hb.
    apply fold_relocate_lookup in Hb as [Hb|(Hin' & front' & rest' & -> & Hidx)].
    + rewrite list_lookup_insert_eq in Hb by done. injection Hb as <-.
      exists front, rest. split; [done|]. split; [apply list_elem_of_here|done].
    + exists front', rest'. split; [done|].
      split; [by apply list_elem_of_further|].
      rewrite length_insert in Hidx. fold n in Hidx.
      pose proof (utils_hash_range front.1 n).
      pose proof (utils_hash_range front'.1 n).
      unfold idx in Hidx. unfold n in *. lia.
Qed.

Lemma rehash_capacity (buckets : list Bucket) :
  Z.of_nat (length (replicate (Z.to_nat (Z.of_nat (length buckets) * kGrowthCoefficient))
                      ([] : Bucket)))
  = Z.of_nat (length buckets) * kGrowthCoefficient.
Proof. rewrite length_replicate. unfold kGrowthCoefficient. lia. Qed.

(** The resize moves whole buckets: the statement on the loop. *)
Lemma rehash_whole_buckets (buckets : list Bucket) :
  (0 < length buckets)%nat →
  length (rehash buckets) = (length buckets * 2)%nat
  ∧ (∀ (j : nat) kv (bucket : Bucket),
       rehash buckets !! j = Some bucket → kv ∈ bucket →
       bucket ∈ buckets
       ∧ ∃ front rest, bucket = front :: rest
         ∧ new_index (length buckets) front = j)
  ∧ (∀ front rest,
       front :: rest ∈ buckets →
       ∃ front' rest',
         rehash buckets !! new_index (length buckets) front = Some (front' :: rest')
         ∧ front' :: rest' ∈ buckets
         ∧ new_index (length buckets) front' = new_index (length buckets) front)
  ∧ (∀ front rest,
       front :: rest ∈ buckets →
       (∀ front' rest', front' :: rest' ∈ buckets →
          new_index (length buckets) front' = new_index (length buckets) front →
          front' :: rest' = front :: rest) →
       rehash buckets !! new_index (length buckets) front = Some (front :: rest)).
Proof.
  intros Hpos. split; [apply rehash_length|].
  assert (∀ front rest,
    front :: rest ∈ buckets →
    ∃ front' rest',
      rehash buckets !! new_index (length buckets) front = Some (front' :: rest')
      ∧ front' :: rest' ∈ buckets
      ∧ new_index (length buckets) front' = new_index (length buckets) front)
    as Hwritten.
  { intros front rest Hin. unfold rehash, new_index.
    pose proof (rehash_capacity buckets) as Hcap.
    set (nb := replicate _ []) in *. rewrite <- Hcap.
    destruct (fold_relocate_written buckets nb front rest Hin)
      as (front' & rest' & Hlook & Hin' & Heq).
    { unfold nb. rewrite length_replicate. unfold kGrowthCoefficient. lia. }
    exists front', rest'. by rewrite Heq. }
  split; [|split; [done|]].
  - intros j kv bucket Hj Hkv. unfold rehash in Hj.
    apply fold_relocate_lookup in Hj as [Hj|(Hin & front & rest & -> & Hidx)].
    + apply lookup_replicate in Hj as [-> _]. by apply elem_of_nil in Hkv.
    + split; [done|]. exists front, rest. split; [done|].
      unfold new_index. by rewrite <- (rehash_capacity buckets).
  - intros front rest Hin Huniq.
    destruct (Hwritten front rest Hin) as (front' & rest' & Hlook & Hin' & Heq).
    rewrite Hlook. f_equal. by apply Huniq.
Qed.

Lemma Put_resized t key value :
  load_reached (num_keys_ t + 1) (capacity t) (load_factor_ t) = true →
  buckets_ (Put t key value) = rehash (buckets_ (put_pair t key value)).
Proof.
  intros Hload. unfold Put, grow, capacity in *.
  by rewrite put_pair_num_keys, put_pair_load_factor, put_pair_length, Hload.
Qed.

Lemma Put_not_resized t key value :
  load_reached (num_keys_ t + 1) (capacity t) (load_factor_ t) = false →
  Put t key value = put_pair t key value.
Proof.
  intros Hload. unfold Put, grow, capacity in *.
  by rewrite put_pair_num_keys, put_pair_load_factor, put_pair_length, Hload.
Qed.

(** C4: when [Put] resizes, it moves whole buckets.  With [old] the bucket
    array after the pair was written and [new] the one at the return of
    [Put]: every non-empty bucket of [new] is an entire bucket of [old],
    standing at the index that the new capacity gives to the key of its
    first pair, whatever the keys of its other pairs; and the index computed
    from the first key of a non-empty bucket of [old] holds in [new] a whole
    bucket of [old] with that destination, which is the bucket itself when
    no other non-empty bucket of [old] has the same destination. *)
Theorem Put_moves_whole_buckets (t : HashTable) (key : Z) (value : string) :
  (0 < length (buckets_ t))%nat →
  load_reached (num_keys_ t + 1) (capacity t) (load_factor_ t) = true →
  let old := buckets_ (put_pair t key value) in
  let new := buckets_ (Put t key value) in
  let cap := length (buckets_ t) in
  (∀ (j : nat) kv (bucket : Bucket),
     new !! j = Some bucket → kv ∈ bucket →
     bucket ∈ old
     ∧ ∃ front rest, bucket = front :: rest ∧ new_index cap front = j)
  ∧ (∀ front rest,
       front :: rest ∈ old →
       ∃ front' rest',
         new !! new_index cap front = Some (front' :: rest')
         ∧ front' :: rest' ∈ old
         ∧ new_index cap front' = new_index cap front)
  ∧ (∀ front rest,
       front :: rest ∈ old →
       (∀ front' rest', front' :: rest' ∈ old →
          new_index cap front' = new_index cap front →
          front' :: rest' = front :: rest) →
       new !! new_index cap front = Some (front :: rest)).
Proof.
  intros Hpos Hload old new cap. unfold new, cap.
  rewrite (Put_resized _ _ _ Hload), <- (put_pair_length t key value).
  apply rehash_whole_buckets. by rewrite put_pair_length.
Qed.

(** ** Runs of [Put] only: every bucket stands at the index of its first key *)

Lemma assign_front key value front rest :
  ∃ front' rest', (assign key value (front :: rest)).1 = front' :: rest'
                  ∧ front'.1 = front.1.
Proof.
  simpl. destruct (front.1 =? key); [by eexists _, _|].
  destruct (assign key value rest) as [rest' flag]. by eexists _, _.
Qed.

Lemma put_pair_fronts_placed t key value :
  fronts_placed (buckets_ t) → fronts_placed (buckets_ (put_pair t key value)).
Proof.
  intros Hfp i front rest. rewrite put_pair_length. unfold put_pair, bucket_at.
  destruct (buckets_ t !! Z.to_nat (hash t key)) as [b0|] eqn:Hb0; simpl.
  - assert (Z.to_nat (hash t key) < length (buckets_ t))%nat as Hlt
      by (by eapply lookup_lt_Some).
    assert (Z.of_nat (Z.to_nat (hash t key))
            = utils_hash key (Z.of_nat (length (buckets_ t)))) as Hidx.
    { pose proof (utils_hash_range key (Z.of_nat (length (buckets_ t)))).
      unfold hash, capacity. lia. }
    pose proof (assign_flag key value b0) as Hflag.
    destruct b0 as [|p r].
    + simpl. intros [(<- & [= <- <-] & _)|[_ Hi]]%list_lookup_insert_Some.
      * done.
      * by apply Hfp in Hi.
    + destruct (assign_front key value p r) as (p' & r' & Hassign & Hp').
      destruct (assign key value (p :: r)) as [bucket flag]. simpl in Hassign.
      subst bucket. simpl.
      intros [(<- & Heq & _)|[_ Hi]]%list_lookup_insert_Some.
      * assert (front.1 = p.1) as ->.
        { destruct flag; simpl in Heq; injection Heq as <- _; done. }
        by apply Hfp in Hb0.
      * by apply Hfp in Hi.
  - destruct (assign key value []) as [bucket flag].
    apply lookup_ge_None in Hb0. rewrite list_insert_ge by done. apply Hfp.
Qed.

Lemma rehash_fronts_placed buckets : fronts_placed (rehash buckets).
Proof.
  intros j front rest Hj. rewrite rehash_length.
  assert (j < length buckets * 2)%nat as Hlt.
  { apply lookup_lt_Some in Hj. by rewrite rehash_length in Hj. }
  unfold rehash in Hj.
  apply fold_relocate_lookup in Hj as [Hj|(_ & front' & rest' & [= <- <-] & Hidx)].
  - by apply lookup_replicate in Hj as [? _].
  - rewrite rehash_capacity in Hidx. unfold kGrowthCoefficient in Hidx.
    pose proof (utils_hash_range front.1 (Z.of_nat (length buckets) * 2)).
    replace (Z.of_nat (length buckets * 2)) with (Z.of_nat (length buckets) * 2) by lia.
    lia.
Qed.

Lemma Put_fronts_placed t key value :
  fronts_placed (buckets_ t) → fronts_placed (buckets_ (Put t key value)).
Proof.
  intros Hfp%(put_pair_fronts_placed _ key value). unfold Put, grow.
  destruct (load_reached _ _ _); simpl; [|done]. apply rehash_fronts_placed.
Qed.

Lemma puts_fronts_placed kvs t :
  fronts_placed (buckets_ t) → fronts_placed (buckets_ (puts t kvs)).
Proof.
  revert t. induction kvs as [|kv kvs IH]; intros t Hfp; simpl; [done|].
  by apply IH, Put_fronts_placed.
Qed.

Lemma reachable_by_puts_fronts_placed t :
  reachable_by_puts t → fronts_placed (buckets_ t).
Proof.
  intros (cap & lf & t0 & kvs & Hnew & ->). apply puts_fronts_placed.
  apply HashTable_new_inr in Hnew as [_ ->]. simpl.
  intros i front rest Hi. by apply lookup_replicate in Hi as [? _].
Qed.

(** Buckets that stand at the index of their first key are sent to
    different indices of the doubled array. *)
Lemma fronts_placed_new_index buckets (i j : nat) p r q r' :
  fronts_placed buckets →
  buckets !! i = Some (p :: r) → buckets !! j = Some (q :: r') →
  new_index (length buckets) p = new_index (length buckets) q → i = j.
Proof.
  intros Hfp Hi Hj Heq.
  assert (0 < length buckets)%nat as Hpos by (apply lookup_lt_Some in Hi; lia).
  apply Hfp in Hi, Hj. unfold new_index, kGrowthCoefficient in Heq.
  set (n := Z.of_nat (length buckets)) in *.
  pose proof (utils_hash_range p.1 (n * 2)).
  pose proof (utils_hash_range q.1 (n * 2)).
  assert (utils_hash p.1 (n * 2) = utils_hash q.1 (n * 2)) as Heq' by lia.
  unfold utils_hash in *.
  rewrite <- (Z.mod_mod_divide (hash_code p.1) (n * 2) n) in Hi by (exists 2; lia).
  rewrite <- (Z.mod_mod_divide (hash_code q.1) (n * 2) n) in Hj by (exists 2; lia).
  rewrite Heq' in Hi. lia.
Qed.

Lemma rehash_keeps_placed buckets (i : nat) front rest :
  fronts_placed buckets →
  buckets !! i = Some (front :: rest) →
  rehash buckets !! new_index (length buckets) front = Some (front :: rest).
Proof.
  intros Hfp Hi.
  assert (0 < length buckets)%nat as Hpos by (apply lookup_lt_Some in Hi; lia).
  destruct (rehash_whole_buckets buckets Hpos) as (_ & _ & _ & Hkeep).
  apply Hkeep; [by eapply list_elem_of_lookup_2|].
  intros front' rest' [j Hj]%list_elem_of_lookup_1 Heq.
  assert (j = i) as -> by by eapply fronts_placed_new_index.
  congruence.
Qed.

Lemma pairs_insert_nil (buckets : list Bucket) (i : nat) (b : Bucket) :
  buckets !! i = Some [] → pairs (<[i:=b]> buckets) ≡ₚ b ++ pairs buckets.
Proof.
  unfold pairs. revert i. induction buckets as [|x bs IH]; intros i; [done|].
  destruct i as [|i]; simpl.
  - by intros [= ->].
  - intros Hi. rewrite (IH i Hi). by rewrite !app_assoc, (Permutation_app_comm x b).
Qed.

(** When the old buckets are sent to pairwise different and still empty
    indices, the loop keeps every pair. *)
Lemma fold_relocate_perm buckets new_buckets :
  (∀ (i j : nat) p r q r',
     buckets !! i = Some (p :: r) → buckets !! j = Some (q :: r') →
     Z.to_nat (utils_hash p.1 (Z.of_nat (length new_buckets)))
     = Z.to_nat (utils_hash q.1 (Z.of_nat (length new_buckets))) → i = j) →
  (∀ (i : nat) p r,
     buckets !! i = Some (p :: r) →
     new_buckets !! Z.to_nat (utils_hash p.1 (Z.of_nat (length new_buckets)))
     = Some []) →
  pairs (fold_left relocate buckets new_buckets)
  ≡ₚ pairs new_buckets ++ pairs buckets.
Proof.
  revert new_buckets.
  induction buckets as [|x bs IH]; intros nb Hinj Hfree; simpl.
  { change (pairs []) with ([] : list Pair). by rewrite app_nil_r. }
  change (pairs (x :: bs)) with (x ++ pairs bs).
  rewrite IH.
  - destruct x as [|p r]; simpl; [done|].
    rewrite (pairs_insert_nil nb _ (p :: r)) by apply (Hfree 0%nat p r eq_refl).
    rewrite (Permutation_app_comm (p :: r) (pairs nb)). by rewrite <- app_assoc.
  - intros i j p r q r' Hi Hj. rewrite relocate_length. intros Heq.
    by specialize (Hinj (S i) (S j) p r q r' Hi Hj Heq) as [= ->].
  - intros i q r' Hi. rewrite relocate_length.
    destruct x as [|p r]; simpl; [by apply (Hfree (S i) q r')|].
    rewrite list_lookup_insert_ne; [by apply (Hfree (S i) q r')|].
    intros Heq. by specialize (Hinj 0%nat (S i) p r q r' eq_refl Hi Heq).
Qed.

Lemma rehash_perm buckets :
  fronts_placed buckets → pairs (rehash buckets) ≡ₚ pairs buckets.
Proof.
  intros Hfp. unfold rehash. rewrite fold_relocate_perm.
  - by rewrite pairs_replicate_nil.
  - intros i j p r q r' Hi Hj. rewrite rehash_capacity. intros Heq.
    by eapply fronts_placed_new_index.
  - intros i p r Hi. apply lookup_replicate_2.
    assert (0 < length buckets)%nat as Hpos by (apply lookup_lt_Some in Hi; lia).
    pose proof (utils_hash_range p.1 (Z.of_nat (length buckets) * kGrowthCoefficient)).
    rewrite length_replicate. unfold kGrowthCoefficient in *.
    replace (Z.of_nat (Z.to_nat (Z.of_nat (length buckets) * 2)))
      with (Z.of_nat (length buckets) * 2) by lia.
    lia.
Qed.

(** C9, as amended: in a run of [Put] calls on a freshly constructed table,
    the resize inside [Put] sends different non-empty old buckets to
    different indices of the new array, so that no bucket is overwritten:
    each non-empty old bucket stands whole at its new index, and the pairs,
    the key set and the values (up to their order) at the return of [Put]
    are the ones stored after the pair was written. *)
Theorem Put_resize_overwrites_nothing (t : HashTable) (key : Z) (value : string) :
  reachable_by_puts t →
  let old := buckets_ (put_pair t key value) in
  let new := buckets_ (Put t key value) in
  (∀ (i j : nat) p r q r',
     old !! i = Some (p :: r) → old !! j = Some (q :: r') → i ≠ j →
     new_index (length old) p ≠ new_index (length old) q)
  ∧ (load_reached (num_keys_ t + 1) (capacity t) (load_factor_ t) = true →
     ∀ (i : nat) p r,
       old !! i = Some (p :: r) →
       new !! new_index (length old) p = Some (p :: r))
  ∧ pairs new ≡ₚ pairs old
  ∧ keys (Put t key value) = keys (put_pair t key value)
  ∧ values (Put t key value) ≡ₚ values (put_pair t key value).
Proof.
  intros Hfp%reachable_by_puts_fronts_placed%(put_pair_fronts_placed _ key value).
  intros old new. fold old in Hfp.
  assert (pairs new ≡ₚ pairs old) as Hperm.
  { unfold new, Put, grow. destruct (load_reached _ _ _); simpl; [|done].
    by apply rehash_perm. }
  split; [|split; [|split; [done|split]]].
  - intros i j p r q r' Hi Hj Hne Heq. apply Hne.
    by eapply fronts_placed_new_index.
  - intros Hload i p r Hi. unfold new. rewrite (Put_resized _ _ _ Hload).
    by eapply rehash_keeps_placed.
  - rewrite !keys_pairs. fold new old. apply list_to_set_perm_L.
    by apply fmap_Permutation.
  - rewrite !values_pairs. fold new old. by apply fmap_Permutation.
Qed.

(** ** Keys that a resize leaves behind *)

Lemma elem_of_pairs (kv : Pair) (buckets : list Bucket) :
  kv ∈ pairs buckets ↔ ∃ bucket, bucket ∈ buckets ∧ kv ∈ bucket.
Proof.
  unfold pairs. induction buckets as [|b bs IH]; simpl.
  - split; [by intros ?%elem_of_nil|]. by intros (b & ?%elem_of_nil & _).
  - rewrite elem_of_app, IH. split.
    + intros [Hb|(b' & Hb' & Hkv)].
      * exists b. split; [apply list_elem_of_here|done].
      * exists b'. split; [by apply list_elem_of_further|done].
    + intros (b' & [->|Hb']%elem_of_cons & Hkv); [by left|].
      right. by exists b'.
Qed.

Lemma assign_stores key value bucket :
  (assign key value bucket).2 = true → (key, value) ∈ (assign key value bucket).1.
Proof.
  induction bucket as [|kv rest IH]; simpl; [done|].
  destruct (Z.eqb_spec kv.1 key) as [->|Hne]; simpl.
  - intros _. apply list_elem_of_here.
  - destruct (assign key value rest) as [rest' flag]. simpl in *.
    intros Hflag. by apply list_elem_of_further, IH.
Qed.

(** What [put_pair] writes at the index of the key. *)
Lemma put_pair_lookup t key value :
  (0 < length (buckets_ t))%nat →
  ∃ bucket,
    buckets_ (put_pair t key value) !! Z.to_nat (hash t key) = Some bucket
    ∧ (key, value) ∈ bucket
    ∧ ∀ front rest, bucket_at (buckets_ t) (hash t key) = front :: rest →
        ∃ front' rest', bucket = front' :: rest' ∧ front'.1 = front.1.
Proof.
  intros Hpos.
  assert (Z.to_nat (hash t key) < length (buckets_ t))%nat as Hlt.
  { pose proof (utils_hash_range key (capacity t)). unfold hash, capacity in *. lia. }
  unfold put_pair.
  pose proof (assign_stores key value (bucket_at (buckets_ t) (hash t key))) as Hst.
  destruct (bucket_at (buckets_ t) (hash t key)) as [|p r] eqn:Hb.
  - simpl. eexists. split; [by apply list_lookup_insert_eq|].
    split; [apply list_elem_of_here|done].
  - destruct (assign_front key value p r) as (p' & r' & Hassign & Hp').
    destruct (assign key value (p :: r)) as [bucket flag]. simpl in *. subst bucket.
    eexists. split; [by apply list_lookup_insert_eq|]. split.
    + destruct flag; [by apply Hst|]. apply elem_of_app. right. apply list_elem_of_here.
    + intros front rest [= <- <-]. destruct flag; by eexists _, _.
Qed.

(** C1: a key appended behind the first pair of its bucket is lost to
    [Search] when the [Put] that stores it resizes the table and the doubled
    capacity separates its index from the index of that first key: the pair
    is stored, at the index of the first key, and [Search] reads the index
    of the key itself, where it finds an empty bucket. *)
Theorem Search_misses_moved_key
    (t : HashTable) (key : Z) (value : string) (front : Pair) (rest : Bucket) :
  reachable_by_puts t →
  load_reached (num_keys_ t + 1) (capacity t) (load_factor_ t) = true →
  bucket_at (buckets_ t) (hash t key) = front :: rest →
  utils_hash front.1 (capacity t * 2) ≠ utils_hash key (capacity t * 2) →
  (key, value) ∈ pairs (buckets_ (Put t key value))
  ∧ Search (Put t key value) key = None.
Proof.
  intros Hfp%reachable_by_puts_fronts_placed Hload Hbucket Hsep.
  assert (0 < length (buckets_ t))%nat as Hpos.
  { unfold bucket_at in Hbucket.
    destruct (buckets_ t !! Z.to_nat (hash t key)) as [b|] eqn:Hb; [|done].
    apply lookup_lt_Some in Hb. lia. }
  apply (put_pair_fronts_placed _ key value) in Hfp.
  destruct (put_pair_lookup t key value Hpos) as (bucket & Hlook & Hin & Hfront).
  destruct (Hfront front rest Hbucket) as (front' & rest' & -> & Hfront').
  pose proof (put_pair_length t key value) as Hlen.
  set (old := buckets_ (put_pair t key value)) in *.
  rewrite (Put_resized _ _ _ Hload). fold old. split.
  - rewrite (rehash_perm old Hfp). apply elem_of_pairs.
    exists (front' :: rest'). split; [by eapply list_elem_of_lookup_2|done].
  - unfold Search, hash, capacity. rewrite (Put_resized _ _ _ Hload). fold old.
    rewrite rehash_length, Hlen.
    set (n := Z.of_nat (length (buckets_ t))) in *.
    replace (Z.of_nat (length (buckets_ t) * 2)) with (n * 2) by lia.
    unfold capacity in Hsep. fold n in Hsep.
    pose proof (utils_hash_range key (n * 2)) as Hd.
    unfold bucket_at.
    destruct (rehash old !! Z.to_nat (utils_hash key (n * 2))) as [[|f r]|] eqn:Hnew;
      [done| |done].
    exfalso.
    destruct (rehash_whole_buckets old) as (_ & Hinv & _); [lia|].
    destruct (Hinv _ f _ Hnew) as (Hold & f' & r' & [= <- <-] & Hidx);
      [apply list_elem_of_here|].
    apply list_elem_of_lookup_1 in Hold as [j Hj].
    pose proof (Hfp _ _ _ Hj) as Hplaced. pose proof (Hfp _ _ _ Hlook) as Hplaced'.
    rewrite Hlen in Hidx, Hplaced, Hplaced'. fold n in Hplaced, Hplaced'.
    unfold new_index, kGrowthCoefficient in Hidx. fold n in Hidx.
    pose proof (utils_hash_range f.1 (n * 2)).
    assert (utils_hash f.1 (n * 2) = utils_hash key (n * 2)) as Heq by lia.
    assert (j = Z.to_nat (hash t key)) as ->.
    { assert (utils_hash f.1 n = utils_hash key n) as Heq'.
      { unfold utils_hash in *.
        rewrite <- (Z.mod_mod_divide (hash_code f.1) (n * 2) n) by (exists 2; lia).
        rewrite <- (Z.mod_mod_divide (hash_code key) (n * 2) n) by (exists 2; lia).
        by rewrite Heq. }
      pose proof (utils_hash_range key n).
      unfold hash, capacity. fold n. lia. }
    rewrite Hlook in Hj. injection Hj as <- <-.
    apply Hsep. by rewrite <- Hfront'.
Qed.

Lemma Put_pairs_perm t key value :
  fronts_placed (buckets_ t) →
  pairs (buckets_ (Put t key value)) ≡ₚ pairs (buckets_ (put_pair t key value)).
Proof.
  intros Hfp%(put_pair_fronts_placed _ key value). unfold Put, grow.
  destruct (load_reached _ _ _); simpl; [|done]. by apply rehash_perm.
Qed.

Lemma assign_absent key value bucket :
  key ∉ bucket.*1 → assign key value bucket = (bucket, false).
Proof.
  induction bucket as [|kv rest IH]; csimpl; [done|].
  rewrite not_elem_of_cons. intros [Hne Hrest].
  destruct (Z.eqb_spec kv.1 key) as [Heq|_]; [done|]. by rewrite IH.
Qed.

Lemma pairs_insert_app (buckets : list Bucket) (i : nat) (b0 l : Bucket) :
  buckets !! i = Some b0 → pairs (<[i:=b0 ++ l]> buckets) ≡ₚ l ++ pairs buckets.
Proof.
  unfold pairs. revert i. induction buckets as [|x bs IH]; intros i; [done|].
  destruct i as [|i]; simpl.
  - intros [= ->]. by rewrite !app_assoc, (Permutation_app_comm b0 l).
  - intros Hi. rewrite (IH i Hi). by rewrite !app_assoc, (Permutation_app_comm x l).
Qed.

(** C2: when a key is stored in the table and the bucket at its own index
    does not hold it (a resize has left it in the bucket of another first
    key), [Put] on this key appends a second pair for it: at the return of
    [Put] the keys of the stored pairs are not pairwise distinct, and the
    table holds the old pair of the key and the new one. *)
Theorem Put_duplicates_moved_key
    (t : HashTable) (key : Z) (stored value : string) :
  reachable_by_puts t →
  (key, stored) ∈ pairs (buckets_ t) →
  Search t key = None →
  ¬ NoDup (pairs (buckets_ (Put t key value))).*1
  ∧ pairs (buckets_ (Put t key value)) ≡ₚ (key, value) :: pairs (buckets_ t).
Proof.
  intros Hfp%reachable_by_puts_fronts_placed Hstored Hsearch.
  assert (0 < length (buckets_ t))%nat as Hpos.
  { apply elem_of_pairs in Hstored as (b & [i Hi]%list_elem_of_lookup_1 & _).
    apply lookup_lt_Some in Hi. lia. }
  assert (Z.to_nat (hash t key) < length (buckets_ t))%nat as Hlt.
  { pose proof (utils_hash_range key (capacity t)). unfold hash, capacity in *. lia. }
  apply lookup_lt_is_Some in Hlt as [b0 Hb0].
  assert (pairs (buckets_ (Put t key value)) ≡ₚ (key, value) :: pairs (buckets_ t))
    as Hperm.
  { rewrite (Put_pairs_perm _ _ _ Hfp). unfold put_pair, Search, bucket_at in *.
    rewrite Hb0 in *. simpl in *.
    rewrite scan_first_pair in Hsearch. apply fmap_None, first_pair_None in Hsearch.
    rewrite (assign_absent _ _ _ Hsearch). simpl.
    by rewrite (pairs_insert_app _ _ _ [(key, value)] Hb0). }
  split; [|done]. rewrite Hperm. csimpl. rewrite NoDup_cons.
  intros [Hnot _]. apply Hnot. apply list_elem_of_fmap. by exists (key, stored).
Qed.

(** ** Lookups after [Put] and [Remove] *)

Lemma scan_Some key value bucket :
  scan key bucket = Some value → (key, value) ∈ bucket.
Proof.
  induction bucket as [|kv rest IH]; simpl; [done|].
  destruct (Z.eqb_spec kv.1 key) as [<-|Hne].
  - intros [= <-]. destruct kv. apply list_elem_of_here.
  - intros Hscan. by apply list_elem_of_further, IH.
Qed.

Lemma scan_None key bucket : scan key bucket = None ↔ key ∉ bucket.*1.
Proof.
  rewrite scan_first_pair, <- first_pair_None.
  destruct (first_pair key bucket); simpl; naive_solver.
Qed.

(** With distinct keys in the bucket, the scan finds any of its pairs. *)
Lemma scan_elem_of key value bucket :
  NoDup bucket.*1 → (key, value) ∈ bucket → scan key bucket = Some value.
Proof.
  induction bucket as [|kv rest IH]; csimpl; [by intros _ ?%elem_of_nil|].
  rewrite NoDup_cons. intros [Hkv Hrest] [<-|Hin]%elem_of_cons; simpl.
  - by rewrite Z.eqb_refl.
  - destruct (Z.eqb_spec kv.1 key) as [Heq|_]; [|by apply IH].
    exfalso. apply Hkv. rewrite Heq. apply list_elem_of_fmap. by exists (key, value).
Qed.

(** The bucket that [Put] leaves at the index of the key. *)
Lemma put_pair_buckets t key value :
  buckets_ (put_pair t key value)
  = <[Z.to_nat (hash t key) :=
        (if (assign key value (bucket_at (buckets_ t) (hash t key))).2
         then (assign key value (bucket_at (buckets_ t) (hash t key))).1
         else (assign key value (bucket_at (buckets_ t) (hash t key))).1
              ++ [(key, value)])]> (buckets_ t).
Proof. unfold put_pair. by destruct (assign _ _ _). Qed.

Lemma scan_put key value bucket :
  scan key (if (assign key value bucket).2 then (assign key value bucket).1
            else (assign key value bucket).1 ++ [(key, value)])
  = Some value.
Proof.
  induction bucket as [|kv rest IH]; simpl.
  - by rewrite Z.eqb_refl.
  - destruct (Z.eqb_spec kv.1 key) as [Heq|Hne]; simpl.
    + by rewrite Heq, Z.eqb_refl.
    + destruct (assign key value rest) as [rest' flag]. simpl in *.
      destruct flag; simpl; by destruct (Z.eqb_spec kv.1 key).
Qed.

Lemma scan_put_other key key' value bucket :
  key' ≠ key →
  scan key' (if (assign key value bucket).2 then (assign key value bucket).1
             else (assign key value bucket).1 ++ [(key, value)])
  = scan key' bucket.
Proof.
  intros Hne. induction bucket as [|kv rest IH]; simpl.
  - by destruct (Z.eqb_spec key key').
  - destruct (Z.eqb_spec kv.1 key) as [Heq|Hkv]; simpl.
    + rewrite Heq. by destruct (Z.eqb_spec key key').
    + destruct (assign key value rest) as [rest' flag]. simpl in *.
      destruct flag; simpl; by rewrite IH.
Qed.

Lemma scan_list_remove_other key' (p : Pair) bucket :
  p.1 ≠ key' → scan key' (list_remove p bucket) = scan key' bucket.
Proof.
  intros Hne. unfold list_remove. induction bucket as [|kv rest IH]; simpl; [done|].
  destruct (pair_eqb kv p) eqn:Heq; simpl.
  - apply pair_eqb_eq in Heq as ->. by destruct (Z.eqb_spec p.1 key').
  - by rewrite IH.
Qed.

Lemma list_remove_absent (p : Pair) (bucket : Bucket) :
  p.1 ∉ bucket.*1 → list_remove p bucket = bucket.
Proof.
  unfold list_remove. induction bucket as [|kv rest IH]; csimpl; [done|].
  rewrite not_elem_of_cons. intros [Hkv Hrest].
  destruct (pair_eqb kv p) eqn:Heq; simpl.
  - apply pair_eqb_eq in Heq. by subst.
  - by rewrite IH.
Qed.

Lemma list_remove_snoc (p : Pair) (bucket : Bucket) :
  p.1 ∉ bucket.*1 → list_remove p (bucket ++ [p]) = bucket.
Proof.
  intros Hp. unfold list_remove. rewrite List.filter_app. simpl.
  fold (list_remove p bucket). rewrite list_remove_absent by done.
  assert (pair_eqb p p = true) as -> by by apply pair_eqb_eq.
  simpl. by rewrite app_nil_r.
Qed.

(** Reading the array after one bucket was replaced by a bucket with the
    same scan result. *)
Lemma scan_bucket_at_insert (buckets : list Bucket) (i : nat) b key index :
  scan key b = scan key (default [] (buckets !! i)) →
  scan key (bucket_at (<[i:=b]> buckets) index) = scan key (bucket_at buckets index).
Proof.
  intros Hscan. unfold bucket_at.
  destruct (decide (i = Z.to_nat index)) as [<-|Hne].
  - destruct (buckets !! i) as [b0|] eqn:Hi.
    + apply lookup_lt_Some in Hi as Hlt. by rewrite list_lookup_insert_eq.
    + rewrite list_insert_ge by by apply lookup_ge_None. by rewrite Hi.
  - by rewrite list_lookup_insert_ne.
Qed.

Lemma hash_same_length t t' key :
  length (buckets_ t') = length (buckets_ t) → hash t' key = hash t key.
Proof. intros Hlen. unfold hash, capacity. by rewrite Hlen. Qed.

Lemma hash_index_lt t key :
  (0 < length (buckets_ t))%nat → (Z.to_nat (hash t key) < length (buckets_ t))%nat.
Proof.
  intros Hpos. pose proof (utils_hash_range key (capacity t)).
  unfold hash, capacity in *. lia.
Qed.

Lemma put_pair_Search t key value :
  (0 < length (buckets_ t))%nat → Search (put_pair t key value) key = Some value.
Proof.
  intros Hpos. unfold Search.
  rewrite (hash_same_length t) by apply put_pair_length.
  rewrite put_pair_buckets. unfold bucket_at at 1.
  rewrite list_lookup_insert_eq by by apply hash_index_lt.
  apply scan_put.
Qed.

Lemma put_pair_Search_other t key key' value :
  key' ≠ key → Search (put_pair t key value) key' = Search t key'.
Proof.
  intros Hne. unfold Search.
  rewrite (hash_same_length t) by apply put_pair_length.
  rewrite put_pair_buckets. apply scan_bucket_at_insert.
  by apply scan_put_other.
Qed.

(** X1: [Put] then [Search], without a resize: the value just written is
    returned, whether the key was new or its value was overwritten. *)
Theorem Put_then_Search (t : HashTable) (key : Z) (value : string) :
  (0 < capacity t) →
  load_reached (num_keys_ t + 1) (capacity t) (load_factor_ t) = false →
  Search (Put t key value) key = Some value
  ∧ ContainsKey (Put t key value) key = true.
Proof.
  intros Hpos Hload. rewrite (Put_not_resized _ _ _ Hload).
  assert (Search (put_pair t key value) key = Some value) as Hs.
  { apply put_pair_Search. unfold capacity in Hpos. lia. }
  split; [done|]. unfold ContainsKey. rewrite Hs. by apply bool_decide_eq_true.
Qed.

(** X3: [Put] without a resize leaves the result of [Search] on every other key
    as it was. *)
Theorem Put_Search_other (t : HashTable) (key key' : Z) (value : string) :
  key' ≠ key →
  load_reached (num_keys_ t + 1) (capacity t) (load_factor_ t) = false →
  Search (Put t key value) key' = Search t key'.
Proof.
  intros Hne Hload. rewrite (Put_not_resized _ _ _ Hload).
  by apply put_pair_Search_other.
Qed.

Lemma Remove_value t key : (Remove t key).1 = Search t key.
Proof.
  unfold Remove, Search. rewrite scan_first_pair.
  by destruct (first_pair _ _).
Qed.

Lemma Remove_Search_same t key :
  buckets_nodup (buckets_ t) → Search (Remove t key).2 key = None.
Proof.
  intros Hnd. unfold Search.
  rewrite (hash_same_length t) by apply Remove_length.
  unfold Remove.
  destruct (first_pair key (bucket_at (buckets_ t) (hash t key))) as [kv|] eqn:Hfirst;
    simpl.
  - apply scan_None. unfold bucket_at at 1.
    destruct (buckets_ t !! Z.to_nat (hash t key)) as [b0|] eqn:Hb0.
    + rewrite list_lookup_insert_eq by by eapply lookup_lt_Some. simpl.
      pose proof (bucket_at_nodup _ (hash t key) Hnd) as Hb.
      apply first_pair_Some in Hfirst as (Hk & l1 & l2 & Hsplit & Hl1).
      rewrite Hsplit in Hb |- *. rewrite list_remove_split by done.
      rewrite fmap_app, fmap_cons in Hb.
      apply NoDup_app in Hb as (_ & Hdisj & [Hl2 _]%NoDup_cons).
      rewrite fmap_app, elem_of_app. rewrite Hk in Hl2. naive_solver.
    + apply lookup_ge_None in Hb0. rewrite list_insert_ge, (proj2 (lookup_ge_None _ _)) by done.
      by intros ?%elem_of_nil.
  - by apply scan_None, first_pair_None.
Qed.

(** X4: [Remove] returns what [Search] returns for the key, and in a reachable
    table the key is not found afterwards. *)
Theorem Remove_then_Search (t : HashTable) (key : Z) :
  reachable t →
  (Remove t key).1 = Search t key
  ∧ Search (Remove t key).2 key = None
  ∧ ContainsKey (Remove t key).2 key = false.
Proof.
  intros Hnd%reachable_nodup.
  pose proof (Remove_Search_same t key Hnd) as Hs.
  split; [apply Remove_value|]. split; [done|].
  unfold ContainsKey. rewrite Hs. apply bool_decide_eq_false. by intros [? ?].
Qed.

(** X5: [Remove] leaves the result of [Search] on every other key as it was. *)
Theorem Remove_Search_other (t : HashTable) (key key' : Z) :
  key' ≠ key → Search (Remove t key).2 key' = Search t key'.
Proof.
  intros Hne. unfold Search.
  rewrite (hash_same_length t) by apply Remove_length.
  unfold Remove.
  destruct (first_pair key (bucket_at (buckets_ t) (hash t key))) as [kv|] eqn:Hfirst;
    simpl; [|done].
  apply scan_bucket_at_insert. fold (bucket_at (buckets_ t) (hash t key)).
  apply scan_list_remove_other.
  apply first_pair_Some in Hfirst as [-> _]. done.
Qed.

(** X6: a second [Remove] of the same key finds nothing and changes nothing. *)
Theorem Remove_twice (t : HashTable) (key : Z) :
  reachable t →
  Remove (Remove t key).2 key = (None, (Remove t key).2).
Proof.
  intros Hnd%reachable_nodup.
  pose proof (Remove_Search_same t key Hnd) as Hs.
  unfold Search in Hs. apply scan_None, first_pair_None in Hs.
  unfold Remove at 1. by rewrite Hs.
Qed.

(** X7: [Put] of a key that [Search] does not find, without a resize, followed
    by [Remove] of the key: the value comes back and the bucket array is the
    one before the [Put]; only the counter keeps its increment. *)
Theorem Put_then_Remove (t : HashTable) (key : Z) (value : string) :
  (0 < capacity t) →
  Search t key = None →
  load_reached (num_keys_ t + 1) (capacity t) (load_factor_ t) = false →
  Remove (Put t key value) key
  = (Some value,
     {| num_keys_ := num_keys_ t + 1;
        load_factor_ := load_factor_ t;
        buckets_ := buckets_ t |}).
Proof.
  intros Hpos Hsearch Hload. rewrite (Put_not_resized _ _ _ Hload).
  assert (0 < length (buckets_ t))%nat as Hpos' by (unfold capacity in Hpos; lia).
  pose proof (hash_index_lt t key Hpos') as Hlt.
  apply lookup_lt_is_Some in Hlt as [b0 Hb0].
  unfold Search, bucket_at in Hsearch. rewrite Hb0 in Hsearch. simpl in Hsearch.
  apply scan_None in Hsearch.
  unfold Remove. rewrite (hash_same_length t) by apply put_pair_length.
  rewrite put_pair_buckets, put_pair_num_keys, put_pair_load_factor.
  unfold bucket_at. rewrite Hb0. simpl.
  rewrite (assign_absent _ _ _ Hsearch). simpl.
  rewrite list_lookup_insert_eq by by eapply lookup_lt_Some. simpl.
  assert (first_pair key (b0 ++ [(key, value)]) = Some (key, value)) as ->.
  { clear Hb0. induction b0 as [|kv rest IH]; csimpl in *.
    - by rewrite Z.eqb_refl.
    - apply not_elem_of_cons in Hsearch as [Hkv Hrest].
      destruct (Z.eqb_spec kv.1 key); [done|]. by apply IH. }
  simpl. do 2 f_equal.
  rewrite list_insert_insert_eq, list_remove_snoc by done.
  by apply list_insert_id.
Qed.

(** ** [Put] then [Search] across a resize *)

Lemma puts_length_pos kvs t :
  (0 < length (buckets_ t))%nat → (0 < length (buckets_ (puts t kvs)))%nat.
Proof.
  revert t. induction kvs as [|kv kvs IH]; intros t Hpos; simpl; [done|].
  by apply IH, Put_length_pos.
Qed.

Lemma reachable_by_puts_length_pos t :
  reachable_by_puts t → (0 < length (buckets_ t))%nat.
Proof.
  intros (cap & lf & t0 & kvs & Hnew & ->). apply puts_length_pos.
  apply HashTable_new_inr in Hnew as [Hcap ->]. simpl.
  rewrite length_replicate. lia.
Qed.

(** The first pair of the bucket written by [Put]: the new pair in an empty
    bucket, and a pair with the key of the old first pair otherwise. *)
Lemma put_bucket_front key value (bucket : Bucket) :
  ∃ f r,
    (if (assign key value bucket).2 then (assign key value bucket).1
     else (assign key value bucket).1 ++ [(key, value)]) = f :: r
    ∧ (bucket = [] ∧ f.1 = key
       ∨ ∃ front rest, bucket = front :: rest ∧ f.1 = front.1).
Proof.
  destruct bucket as [|front rest].
  - simpl. exists (key, value), []. split; [done|]. by left.
  - destruct (assign_front key value front rest) as (f & r & Hassign & Hf).
    rewrite Hassign. destruct (assign key value (front :: rest)).2.
    + exists f, r. split; [done|]. right. by exists front, rest.
    + exists f, (r ++ [(key, value)]). split; [done|]. right. by exists front, rest.
Qed.

(** X2: [Put] then [Search] in a run of [Put] calls, resize or not: the value
    just written is returned when the bucket of the key was empty, or
    started with a key that the doubled capacity sends to the same index as
    the key. *)
Theorem Put_then_Search_resized (t : HashTable) (key : Z) (value : string) :
  reachable_by_puts t →
  (∀ front rest,
     bucket_at (buckets_ t) (hash t key) = front :: rest →
     utils_hash front.1 (capacity t * 2) = utils_hash key (capacity t * 2)) →
  Search (Put t key value) key = Some value.
Proof.
  intros Hreach Hcond.
  pose proof (reachable_by_puts_length_pos t Hreach) as Hpos.
  apply reachable_by_puts_fronts_placed, (put_pair_fronts_placed _ key value) in Hreach.
  destruct (load_reached (num_keys_ t + 1) (capacity t) (load_factor_ t)) eqn:Hload.
  - pose proof (put_pair_length t key value) as Hlen.
    pose proof (put_pair_buckets t key value) as Hold.
    pose proof (scan_put key value (bucket_at (buckets_ t) (hash t key))) as Hscan.
    destruct (put_bucket_front key value (bucket_at (buckets_ t) (hash t key)))
      as (f & r & Hb & Hfront).
    rewrite Hb in Hold, Hscan.
    assert (utils_hash f.1 (capacity t * 2) = utils_hash key (capacity t * 2)) as Hidx.
    { destruct Hfront as [[_ ->]|(front & rest & Hb0 & ->)]; [done|]. by eapply Hcond. }
    set (old := buckets_ (put_pair t key value)) in *.
    assert (old !! Z.to_nat (hash t key) = Some (f :: r)) as Hlook.
    { rewrite Hold. apply list_lookup_insert_eq. by apply hash_index_lt. }
    pose proof (rehash_keeps_placed old _ f r Hreach Hlook) as Hnew.
    unfold Search, hash, capacity. rewrite (Put_resized _ _ _ Hload). fold old.
    rewrite rehash_length, Hlen.
    unfold new_index, kGrowthCoefficient in Hnew. rewrite Hlen in Hnew.
    unfold capacity in Hidx.
    replace (Z.of_nat (length (buckets_ t) * 2))
      with (Z.of_nat (length (buckets_ t)) * 2) by lia.
    unfold bucket_at. by rewrite <- Hidx, Hnew.
  - rewrite (Put_not_resized _ _ _ Hload). by apply put_pair_Search.
Qed.

(** ** Capacity and load factor along a run *)

Lemma Put_capacity_cases t key value :
  load_factor_ (Put t key value) = load_factor_ t
  ∧ (capacity (Put t key value) = capacity t
     ∨ capacity (Put t key value) = capacity t * 2).
Proof.
  unfold Put. rewrite grow_load_factor, put_pair_load_factor. split; [done|].
  unfold grow, capacity. destruct (load_reached _ _ _); simpl.
  - right. rewrite rehash_length, put_pair_length. lia.
  - left. by rewrite put_pair_length.
Qed.

Lemma Remove_load_factor t key : load_factor_ (Remove t key).2 = load_factor_ t.
Proof. unfold Remove. by destruct (first_pair _ _). Qed.

(** X8: along any run the load factor stays the one of the start, and the
    capacity is the one of the start doubled some number of times, at most
    once per [Put]; [Remove] never changes it. *)
Theorem run_capacity (t : HashTable) (ops : list op) :
  load_factor (run t ops) = load_factor t
  ∧ ∃ doublings : nat,
      (doublings ≤ length (List.filter is_put ops))%nat
      ∧ capacity (run t ops) = capacity t * 2 ^ Z.of_nat doublings.
Proof.
  unfold load_factor. revert t. induction ops as [|o ops IH]; intros t; simpl.
  - split; [done|]. exists 0%nat. split; [done|]. simpl. lia.
  - destruct (IH (apply_op t o)) as (Hlf & j & Hj & Hcap). rewrite Hlf, Hcap.
    destruct o as [key value|key]; simpl.
    + destruct (Put_capacity_cases t key value) as (Hlf' & [Hsame|Hdouble]).
      * split; [done|]. exists j. split; [lia|]. by rewrite Hsame.
      * split; [done|]. exists (S j). split; [lia|]. rewrite Hdouble.
        rewrite Nat2Z.inj_succ, Z.pow_succ_r by lia. lia.
    + split; [apply Remove_load_factor|]. exists j. split; [done|].
      unfold capacity. by rewrite Remove_length.
Qed.

(** X9: [empty()] after a run on a freshly constructed table tells whether the
    run has no [Put] call: once a [Put] was made the table is never empty
    again, whatever is removed. *)
Theorem empty_iff_no_Put (cap : Z) (lf : float) (t0 : HashTable) (ops : list op) :
  HashTable_new cap lf = inr t0 →
  empty (run t0 ops) = true ↔ List.filter is_put ops = [].
Proof.
  intros [_ ->]%HashTable_new_inr. unfold empty, size.
  rewrite run_num_keys, Z.eqb_eq. simpl.
  destruct (List.filter is_put ops); simpl; split; (done || lia).
Qed.

(** ** What [keys()], [values()] and [Search] return *)

(** X10: [keys()] holds exactly the keys of the pairs stored in some bucket, and
    [values()] the values of all stored pairs, bucket after bucket. *)
Theorem keys_values_spec (t : HashTable) :
  (∀ key, key ∈ keys t ↔ ∃ bucket value, bucket ∈ buckets_ t ∧ (key, value) ∈ bucket)
  ∧ values t = (pairs (buckets_ t)).*2
  ∧ length (values t) = length (pairs (buckets_ t)).
Proof.
  split; [|split].
  - intros key. rewrite keys_pairs, elem_of_list_to_set, list_elem_of_fmap. split.
    + intros ([k v] & -> & (bucket & Hb & Hkv)%elem_of_pairs). by exists bucket, v.
    + intros (bucket & value & Hb & Hkv). exists (key, value). split; [done|].
      apply elem_of_pairs. by exists bucket.
  - apply values_pairs.
  - by rewrite values_pairs, length_fmap.
Qed.

Lemma Search_stored t key value :
  Search t key = Some value → (key, value) ∈ pairs (buckets_ t).
Proof.
  unfold Search, bucket_at.
  destruct (buckets_ t !! Z.to_nat (hash t key)) as [b|] eqn:Hb; simpl; [|done].
  intros Hscan%scan_Some. apply elem_of_pairs. exists b.
  split; [by eapply list_elem_of_lookup_2|done].
Qed.

(** X11: [Search] and [ContainsKey] report only what is stored: a value that
    [Search] returns stands with the key in some bucket and is in
    [values()], and a key that [ContainsKey] accepts is in [keys()]. *)
Theorem Search_sound (t : HashTable) (key : Z) :
  (∀ value, Search t key = Some value →
     (key, value) ∈ pairs (buckets_ t) ∧ value ∈ values t)
  ∧ (ContainsKey t key = true → key ∈ keys t).
Proof.
  split.
  - intros value Hin%Search_stored. split; [done|].
    rewrite values_pairs, list_elem_of_fmap. by exists (key, value).
  - unfold ContainsKey. intros [value Hin%Search_stored]%bool_decide_eq_true.
    rewrite keys_pairs, elem_of_list_to_set, list_elem_of_fmap. by exists (key, value).
Qed.

(** ** Every stored pair was written by a [Put] *)

Lemma assign_elem_of key value bucket (kv : Pair) :
  kv ∈ (assign key value bucket).1 → kv ∈ bucket ∨ kv = (key, value).
Proof.
  induction bucket as [|p rest IH]; simpl; [by intros ?%elem_of_nil|].
  destruct (Z.eqb_spec p.1 key) as [Heq|Hne]; simpl.
  - intros [->|Hin]%elem_of_cons; [right; by rewrite Heq|].
    left. by apply list_elem_of_further.
  - destruct (assign key value rest) as [rest' flag]. simpl in *.
    intros [->|Hin]%elem_of_cons; [left; apply list_elem_of_here|].
    destruct (IH Hin) as [?|?]; [left; by apply list_elem_of_further|by right].
Qed.

Lemma elem_of_pairs_insert (buckets : list Bucket) (i : nat) (b : Bucket) (kv : Pair) :
  kv ∈ pairs (<[i:=b]> buckets) → kv ∈ pairs buckets ∨ kv ∈ b.
Proof.
  intros (bucket & [j Hj]%list_elem_of_lookup_1 & Hkv)%elem_of_pairs.
  apply list_lookup_insert_Some in Hj as [(_ & <- & _)|[_ Hj]]; [by right|].
  left. apply elem_of_pairs. exists bucket. split; [by eapply list_elem_of_lookup_2|done].
Qed.

Lemma bucket_at_pairs (buckets : list Bucket) index (kv : Pair) :
  kv ∈ bucket_at buckets index → kv ∈ pairs buckets.
Proof.
  unfold bucket_at.
  destruct (buckets !! Z.to_nat index) as [b|] eqn:Hb; simpl; [|by intros ?%elem_of_nil].
  intros Hkv. apply elem_of_pairs. exists b. split; [by eapply list_elem_of_lookup_2|done].
Qed.

Lemma put_pair_elem_of t key value (kv : Pair) :
  kv ∈ pairs (buckets_ (put_pair t key value)) →
  kv ∈ pairs (buckets_ t) ∨ kv = (key, value).
Proof.
  rewrite put_pair_buckets. intros [?|Hkv]%elem_of_pairs_insert; [by left|].
  assert (kv ∈ (assign key value (bucket_at (buckets_ t) (hash t key))).1
          ∨ kv = (key, value)) as [Hin|?]; [| |by right].
  { destruct (assign _ _ _).2; [by left|].
    apply elem_of_app in Hkv as [?|[->|[]%elem_of_nil]%elem_of_cons]; [by left|by right]. }
  apply assign_elem_of in Hin as [Hin|?]; [|by right].
  left. by eapply bucket_at_pairs.
Qed.

Lemma rehash_elem_of buckets (kv : Pair) :
  kv ∈ pairs (rehash buckets) → kv ∈ pairs buckets.
Proof.
  intros (bucket & [j Hj]%list_elem_of_lookup_1 & Hkv)%elem_of_pairs.
  unfold rehash in Hj.
  apply fold_relocate_lookup in Hj as [Hj|(Hin & _)].
  - apply lookup_replicate in Hj as [-> _]. by apply elem_of_nil in Hkv.
  - apply elem_of_pairs. by exists bucket.
Qed.

Lemma list_remove_elem_of (p kv : Pair) bucket :
  kv ∈ list_remove p bucket → kv ∈ bucket.
Proof.
  unfold list_remove. induction bucket as [|q rest IH]; simpl; [done|].
  destruct (negb _); rewrite ?elem_of_cons; naive_solver.
Qed.

Lemma apply_op_elem_of t o (kv : Pair) :
  kv ∈ pairs (buckets_ (apply_op t o)) →
  kv ∈ pairs (buckets_ t) ∨ o = OpPut kv.1 kv.2.
Proof.
  destruct o as [key value|key]; simpl.
  - unfold Put, grow. intros Hkv.
    assert (kv ∈ pairs (buckets_ (put_pair t key value))) as Hmid.
    { destruct (load_reached _ _ _); simpl in Hkv; [by apply rehash_elem_of|done]. }
    apply put_pair_elem_of in Hmid as [?|Heq]; [by left|right; by rewrite Heq].
  - unfold Remove. destruct (first_pair _ _) as [p|]; simpl; [|by left].
    intros [?|Hkv]%elem_of_pairs_insert; [by left|].
    left. eapply bucket_at_pairs, list_remove_elem_of, Hkv.
Qed.

Lemma run_elem_of ops t (kv : Pair) :
  kv ∈ pairs (buckets_ (run t ops)) →
  kv ∈ pairs (buckets_ t) ∨ OpPut kv.1 kv.2 ∈ ops.
Proof.
  revert t. induction ops as [|o ops IH]; intros t; simpl; [by left|].
  intros [Hstep|?]%IH; [|right; by apply list_elem_of_further].
  apply apply_op_elem_of in Hstep as [?|Heq]; [by left|].
  right. rewrite Heq. apply list_elem_of_here.
Qed.

(** X12: after a run on a freshly constructed table, every stored pair is a key
    with a value that some [Put] of the run wrote for it; so [Search]
    returns only such values, and a key that no [Put] of the run names is
    not found and is not in [keys()]. *)
Theorem stored_pairs_were_put (cap : Z) (lf : float) (t0 : HashTable) (ops : list op) :
  HashTable_new cap lf = inr t0 →
  (∀ key value, (key, value) ∈ pairs (buckets_ (run t0 ops)) → OpPut key value ∈ ops)
  ∧ (∀ key value, Search (run t0 ops) key = Some value → OpPut key value ∈ ops)
  ∧ (∀ key, (∀ value, OpPut key value ∉ ops) →
       Search (run t0 ops) key = None ∧ key ∉ keys (run t0 ops)).
Proof.
  intros [_ ->]%HashTable_new_inr.
  assert (∀ key value,
    (key, value) ∈ pairs (buckets_ (run {| num_keys_ := 0; load_factor_ := lf;
                                           buckets_ := replicate (Z.to_nat cap) [] |} ops)) →
    OpPut key value ∈ ops) as Hput.
  { intros key value [Hin|?]%run_elem_of; [|done]. simpl in Hin.
    rewrite pairs_replicate_nil in Hin. by apply elem_of_nil in Hin. }
  split; [done|]. split.
  - intros key value Hs%Search_stored. by apply Hput.
  - intros key Hnone. split.
    + destruct (Search _ key) as [value|] eqn:Hs; [|done].
      apply Search_stored, Hput in Hs. by apply Hnone in Hs.
    + rewrite keys_pairs, elem_of_list_to_set, list_elem_of_fmap.
      intros ([k v] & -> & Hin). apply Hput in Hin. by apply Hnone in Hin.
Qed.

(** ** What [Search] finds *)

(** X13: in a reachable table the keys of one bucket are pairwise distinct, and
    [Search] finds every pair that stands in the bucket at the index of its
    key. *)
Theorem Search_own_bucket (t : HashTable) :
  reachable t →
  (∀ bucket, bucket ∈ buckets_ t → NoDup bucket.*1)
  ∧ (∀ key value,
       (key, value) ∈ bucket_at (buckets_ t) (hash t key) →
       Search t key = Some value).
Proof.
  intros Hnd%reachable_nodup. split.
  - intros bucket Hb. unfold buckets_nodup in Hnd. rewrite Forall_forall in Hnd.
    by apply Hnd.
  - intros key value Hin. unfold Search. apply scan_elem_of; [|done].
    by apply bucket_at_nodup.
Qed.

(** X14: in a run of [Put] calls the first pair of every bucket is found by
    [Search]: the bucket stands at the index of its first key. *)
Theorem first_pair_found
    (t : HashTable) (i : nat) (key : Z) (value : string) (rest : Bucket) :
  reachable_by_puts t →
  buckets_ t !! i = Some ((key, value) :: rest) →
  hash t key = Z.of_nat i ∧ Search t key = Some value.
Proof.
  intros Hfp%reachable_by_puts_fronts_placed Hi.
  pose proof (Hfp _ _ _ Hi) as Hidx. simpl in Hidx.
  assert (hash t key = Z.of_nat i) as Hhash by done.
  split; [done|]. unfold Search, bucket_at.
  rewrite Hhash, Nat2Z.id, Hi. simpl. by rewrite Z.eqb_refl.
Qed.

(** ** Overwriting a value *)

Lemma pairs_insert_keys (buckets : list Bucket) (i : nat) (b b0 : Bucket) :
  buckets !! i = Some b0 → b.*1 = b0.*1 →
  (pairs (<[i:=b]> buckets)).*1 = (pairs buckets).*1.
Proof.
  unfold pairs. revert i. induction buckets as [|x bs IH]; intros i; [done|].
  destruct i as [|i]; simpl.
  - intros [= ->] Hkeys. by rewrite !fmap_app, Hkeys.
  - intros Hi Hkeys. by rewrite !fmap_app, (IH i Hi Hkeys).
Qed.

(** X15: [Put] on a key that [Search] finds, without a resize: the stored keys
    stay the same, bucket by bucket and in the same order, no pair is added,
    and [size()] grows by one all the same. *)
Theorem Put_overwrites_in_place (t : HashTable) (key : Z) (old value : string) :
  Search t key = Some old →
  load_reached (num_keys_ t + 1) (capacity t) (load_factor_ t) = false →
  (pairs (buckets_ (Put t key value))).*1 = (pairs (buckets_ t)).*1
  ∧ keys (Put t key value) = keys t
  ∧ length (values (Put t key value)) = length (values t)
  ∧ size (Put t key value) = size t + 1.
Proof.
  intros Hsearch Hload.
  assert ((pairs (buckets_ (Put t key value))).*1 = (pairs (buckets_ t)).*1) as Hkeys.
  { rewrite (Put_not_resized _ _ _ Hload), put_pair_buckets.
    unfold Search, bucket_at in *.
    destruct (buckets_ t !! Z.to_nat (hash t key)) as [b0|] eqn:Hb0; [|done].
    simpl in *. apply (pairs_insert_keys _ _ _ b0 Hb0).
    assert ((assign key value b0).2 = true) as ->.
    { apply assign_flag. apply scan_Some in Hsearch.
      apply list_elem_of_fmap. by exists (key, old). }
    apply assign_keys. }
  split; [done|]. split; [by rewrite !keys_pairs, Hkeys|]. split.
  - rewrite !values_pairs, !length_fmap.
    by rewrite <- (length_fmap fst), Hkeys, length_fmap.
  - apply Put_num_keys.
Qed.

(** ** A run without a resize behaves as a map *)

Lemma apply_op_capacity_le t o : capacity t ≤ capacity (apply_op t o).
Proof.
  destruct o as [key value|key]; simpl.
  - destruct (Put_capacity_cases t key value) as (_ & [->| ->]); unfold capacity; lia.
  - unfold capacity. rewrite Remove_length. lia.
Qed.

Lemma run_capacity_le ops t : capacity t ≤ capacity (run t ops).
Proof.
  revert t. induction ops as [|o ops IH]; intros t; simpl; [lia|].
  etrans; [apply apply_op_capacity_le|apply IH].
Qed.

Lemma Put_same_capacity t key value :
  0 < capacity t → capacity (Put t key value) = capacity t →
  load_reached (num_keys_ t + 1) (capacity t) (load_factor_ t) = false.
Proof.
  intros Hpos Hcap.
  destruct (load_reached _ _ _) eqn:Hload; [|done].
  unfold capacity in Hcap, Hpos.
  rewrite (Put_resized _ _ _ Hload), rehash_length, put_pair_length in Hcap. lia.
Qed.

Lemma apply_op_Search t o key :
  buckets_nodup (buckets_ t) → 0 < capacity t →
  capacity (apply_op t o) = capacity t →
  Search (apply_op t o) key = op_result key o (Search t key).
Proof.
  intros Hnd Hpos Hcap. destruct o as [k value|k]; simpl in *.
  - pose proof (Put_same_capacity t k value Hpos Hcap) as Hload.
    rewrite (Put_not_resized _ _ _ Hload).
    destruct (Z.eqb_spec k key) as [->|Hne].
    + apply put_pair_Search. unfold capacity in Hpos. lia.
    + by apply put_pair_Search_other.
  - destruct (Z.eqb_spec k key) as [->|Hne].
    + by apply Remove_Search_same.
    + by apply Remove_Search_other.
Qed.

Lemma apply_op_nodup t o :
  buckets_nodup (buckets_ t) → buckets_nodup (buckets_ (apply_op t o)).
Proof.
  destruct o as [key value|key]; simpl; [apply Put_nodup|apply Remove_nodup].
Qed.

Lemma run_Search ops t key :
  buckets_nodup (buckets_ t) → 0 < capacity t →
  capacity (run t ops) = capacity t →
  Search (run t ops) key = map_lookup key ops (Search t key).
Proof.
  unfold map_lookup.
  revert t. induction ops as [|o ops IH]; intros t Hnd Hpos Hcap; simpl; [done|].
  simpl in Hcap.
  pose proof (apply_op_capacity_le t o) as Hle1.
  pose proof (run_capacity_le ops (apply_op t o)) as Hle2.
  assert (capacity (apply_op t o) = capacity t) as Hstep by lia.
  rewrite IH.
  - by rewrite apply_op_Search.
  - by apply apply_op_nodup.
  - lia.
  - lia.
Qed.

(** X16: starting from a reachable table, a run of [Put] and [Remove] calls that
    ends with the capacity it started with (so that no [Put] of the run
    resized) behaves as a map: [Search] returns the value of the last [Put]
    on the key when no [Remove] of the key follows it, nothing when the last
    call on the key is a [Remove], and the result before the run when the
    run has no call on the key. *)
Theorem run_without_resize (t : HashTable) (ops : list op) (key : Z) :
  reachable t →
  capacity (run t ops) = capacity t →
  Search (run t ops) key = map_lookup key ops (Search t key).
Proof.
  intros Hreach Hcap. apply run_Search; [by apply reachable_nodup| |done].
  apply reachable_length_pos in Hreach. unfold capacity. lia.
Qed.

(** ** The key set in a run of [Put] calls *)

Lemma put_pair_keys t key value :
  (0 < length (buckets_ t))%nat →
  keys (put_pair t key value) = {[ key ]} ∪ keys t.
Proof.
  intros Hpos. rewrite !keys_pairs, put_pair_buckets.
  pose proof (hash_index_lt t key Hpos) as Hlt.
  apply lookup_lt_is_Some in Hlt as [b0 Hb0].
  unfold bucket_at. rewrite Hb0. simpl.
  pose proof (assign_flag key value b0) as Hflag.
  destruct (assign key value b0).2 eqn:Hf.
  - rewrite (pairs_insert_keys _ _ _ b0 Hb0) by apply assign_keys.
    assert (key ∈ (pairs (buckets_ t)).*1) as Hin.
    { assert (key ∈ b0.*1) as Hk by by apply Hflag.
      apply list_elem_of_fmap in Hk as ([k v] & -> & Hkv).
      apply list_elem_of_fmap. exists (k, v). split; [done|].
      apply elem_of_pairs. exists b0. split; [by eapply list_elem_of_lookup_2|done]. }
    set_solver.
  - assert (key ∉ b0.*1) as Habsent.
    { by intros Hk%Hflag. }
    rewrite (assign_absent _ _ _ Habsent). simpl.
    rewrite (pairs_insert_app _ _ _ [(key, value)] Hb0). csimpl. done.
Qed.

Lemma Put_keys t key value :
  fronts_placed (buckets_ t) → (0 < length (buckets_ t))%nat →
  keys (Put t key value) = {[ key ]} ∪ keys t.
Proof.
  intros Hfp Hpos. rewrite <- (put_pair_keys t key value Hpos).
  rewrite !keys_pairs. apply list_to_set_perm_L, fmap_Permutation.
  by apply Put_pairs_perm.
Qed.

Lemma puts_keys kvs t :
  fronts_placed (buckets_ t) → (0 < length (buckets_ t))%nat →
  keys (puts t kvs) = list_to_set kvs.*1 ∪ keys t.
Proof.
  revert t. induction kvs as [|kv kvs IH]; intros t Hfp Hpos; csimpl.
  - set_solver.
  - rewrite IH, Put_keys by (done || by apply Put_fronts_placed || by apply Put_length_pos).
    set_solver.
Qed.

(** X17: after a run of [Put] calls on a freshly constructed table, [keys()] is
    exactly the set of the keys that were put, resizes included: a key that
    [Search] no longer finds is still reported by [keys()]. *)
Theorem keys_of_puts (cap : Z) (lf : float) (t0 : HashTable) (kvs : list Pair) :
  HashTable_new cap lf = inr t0 →
  keys (puts t0 kvs) = list_to_set kvs.*1.
Proof.
  intros Hnew.
  assert (reachable_by_puts t0) as Hreach by (by exists cap, lf, t0, []).
  rewrite puts_keys.
  - apply HashTable_new_inr in Hnew as [_ ->]. rewrite (keys_pairs (mkHashTable _ _ _)).
    simpl. rewrite pairs_replicate_nil. set_solver.
  - by apply reachable_by_puts_fronts_placed.
  - by apply reachable_by_puts_length_pos.
Qed.

End WithHash.

(** ** Concrete runs, with the identity hash code *)

Ltac by_evaluation := vm_compute; reflexivity.
Ltac by_decision := apply (bool_decide_unpack _); vm_compute; exact I.

(** C1 on a table of capacity 2 and load factor 1.0: after [Put(1, "a")]
    the call [Put(3, "b")] doubles the capacity, the bucket of key 1 moves
    to index 1 with the pair of key 3 in it, and [Search(3)] reads the empty
    bucket at index 3. *)
Lemma Search_misses_moved_key_witness :
  let t0 := mkHashTable 0 1%float [[]; []] in
  let t := puts identity_hash t0 [(1, "a"%string)] in
  (3, "b"%string) ∈ pairs (buckets_ (Put identity_hash t 3 "b"))
  ∧ Search identity_hash (Put identity_hash t 3 "b") 3 = None.
Proof.
  intros t0 t.
  apply (Search_misses_moved_key identity_hash t 3 "b" (1, "a"%string) []).
  - exists 2, 1%float, t0, [(1, "a"%string)]. split; by_evaluation.
  - by_evaluation.
  - by_evaluation.
  - vm_compute. discriminate.
Defined.

(** C2 on the same table: after [Put(1, "a")] and [Put(3, "b")], the call
    [Put(3, "c")] stores a second pair for key 3. *)
Lemma Put_duplicates_moved_key_witness :
  let t0 := mkHashTable 0 1%float [[]; []] in
  let t := puts identity_hash t0 [(1, "a"%string); (3, "b"%string)] in
  ¬ NoDup (pairs (buckets_ (Put identity_hash t 3 "c"))).*1
  ∧ pairs (buckets_ (Put identity_hash t 3 "c"))
    ≡ₚ (3, "c"%string) :: pairs (buckets_ t).
Proof.
  intros t0 t.
  apply (Put_duplicates_moved_key identity_hash t 3 "b" "c").
  - exists 2, 1%float, t0, [(1, "a"%string); (3, "b"%string)]. split; by_evaluation.
  - by_decision.
  - by_evaluation.
Defined.

(** C3 at the table of capacity 4 and load factor 0.75 holding keys 1 and
    2: the third [Put] brings the count to 3, 3 / 4 reaches 0.75 and the
    capacity becomes 8. *)
Example Put_capacity_grows :
  let t0 := mkHashTable 0 0.75%float [[]; []; []; []] in
  let t := puts identity_hash t0 [(1, "a"%string); (2, "b"%string)] in
  capacity t = 4 ∧ capacity (Put identity_hash t 3 "c") = 8.
Proof. split; by_evaluation. Qed.

(** C4 on the table of capacity 2 and load factor 1.0 after [Put(1, "a")],
    for the resizing call [Put(3, "b")]. *)
Lemma Put_moves_whole_buckets_witness :
  let t0 := mkHashTable 0 1%float [[]; []] in
  let t := puts identity_hash t0 [(1, "a"%string)] in
  let old := buckets_ (put_pair identity_hash t 3 "b") in
  let new := buckets_ (Put identity_hash t 3 "b") in
  old = [[]; [(1, "a"%string); (3, "b"%string)]]
  ∧ new !! new_index identity_hash 2 (1, "a"%string)
    = Some [(1, "a"%string); (3, "b"%string)]
  ∧ ∀ (j : nat) kv (bucket : Bucket),
      new !! j = Some bucket → kv ∈ bucket →
      bucket ∈ old
      ∧ ∃ front rest, bucket = front :: rest
        ∧ new_index identity_hash 2 front = j.
Proof.
  intros t0 t old new.
  destruct (Put_moves_whole_buckets identity_hash t 3 "b") as (Hinv & _ & _).
  - vm_compute. lia.
  - by_evaluation.
  - split; [by_evaluation|]. split; [by_evaluation|]. exact Hinv.
Defined.

(** C5 on a run of three [Put] calls, two of them on the same key, and two
    [Remove] calls. *)
Lemma size_counts_puts_witness :
  let t0 := mkHashTable 0 0.75%float [[]; []; []; []] in
  let ops := [OpPut 1 "a"; OpPut 1 "b"; OpRemove 1; OpRemove 7; OpPut 2 "c"] in
  size (run identity_hash t0 ops) = 3.
Proof.
  intros t0 ops.
  destruct (size_counts_puts identity_hash 4 0.75%float t0 ops) as (Hsize & _).
  - by_evaluation.
  - exact Hsize.
Defined.

(** C6 at capacities 0 and 4 and load factors 0.0, 1.5 and 1.0. *)
Lemma HashTable_new_spec_witness :
  HashTable_new 0 0.5%float
  = inl (logic_error "hash table capacity must be greater than zero")
  ∧ HashTable_new 4 0%float
    = inl (logic_error "hash table load factor must be in range [0...1]")
  ∧ HashTable_new 4 1.5%float
    = inl (logic_error "hash table load factor must be in range [0...1]")
  ∧ (∃ t, HashTable_new 4 1%float = inr t)
  ∧ (buckets_ (mkHashTable 0 1%float [[]; []; []; []]) = replicate (Z.to_nat 4) []
     ∧ capacity (mkHashTable 0 1%float [[]; []; []; []]) = 4
     ∧ Forall (fun bucket => bucket = []) (buckets_ (mkHashTable 0 1%float [[]; []; []; []]))
     ∧ size (mkHashTable 0 1%float [[]; []; []; []]) = 0
     ∧ load_factor (mkHashTable 0 1%float [[]; []; []; []]) = 1%float).
Proof.
  destruct (HashTable_new_spec 0 0.5%float) as (Hcap & _).
  destruct (HashTable_new_spec 4 0%float) as (_ & _ & Hzero & _).
  destruct (HashTable_new_spec 4 1.5%float) as (_ & _ & Hbig & _).
  destruct (HashTable_new_spec 4 1%float) as (_ & _ & _ & Hone & Hnew).
  split; [apply Hcap; lia|].
  split; [apply Hzero; [lia|left; by_evaluation]|].
  split; [apply Hbig; [lia|right; by_evaluation]|].
  split; [apply Hone; lia|].
  apply Hnew. by_evaluation.
Defined.

(** C7 on the table of capacity 4 holding keys 1 and 5 in one bucket:
    [Remove(5)] returns the value of key 5 and leaves key 1 in the bucket;
    [Remove(9)] finds nothing. *)
Lemma Remove_spec_witness :
  let t0 := mkHashTable 0 1%float [[]; []; []; []] in
  let t := run identity_hash t0 [OpPut 1 "a"; OpPut 5 "b"] in
  (∃ value l1 l2,
     bucket_at (buckets_ t) (hash identity_hash t 5) = l1 ++ (5, value) :: l2
     ∧ (5 ∉ (l1 ++ l2).*1)
     ∧ Remove identity_hash t 5
       = (Some value,
          {| num_keys_ := num_keys_ t;
             load_factor_ := load_factor_ t;
             buckets_ := <[Z.to_nat (hash identity_hash t 5) := (l1 ++ l2)]>
                           (buckets_ t) |}))
  ∧ Remove identity_hash t 9 = (None, t).
Proof.
  intros t0 t.
  assert (reachable identity_hash t) as Hreach.
  { exists 4, 1%float, t0, [OpPut 1 "a"; OpPut 5 "b"]. split; by_evaluation. }
  destruct (Remove_spec identity_hash t 5 Hreach) as (Hfound & _).
  destruct (Remove_spec identity_hash t 9 Hreach) as (_ & Hmissing).
  split.
  - apply Hfound. by_decision.
  - apply Hmissing. by_decision.
Defined.

(** C8 on the table of capacity 4 after two [Put] calls, for a negative
    key. *)
Lemma hash_in_bounds_witness :
  let t0 := mkHashTable 0 1%float [[]; []; []; []] in
  let t := run identity_hash t0 [OpPut 1 "a"; OpPut 5 "b"] in
  0 ≤ hash identity_hash t (-7) < capacity t
  ∧ is_Some (buckets_ t !! Z.to_nat (hash identity_hash t (-7))).
Proof.
  intros t0 t. apply (hash_in_bounds identity_hash t (-7)).
  exists 4, 1%float, t0, [OpPut 1 "a"; OpPut 5 "b"]. split; by_evaluation.
Defined.

(** C9, as amended, on the table of capacity 2 and load factor 1.0 after
    [Put(1, "a")], for the resizing call [Put(2, "b")]. *)
Lemma Put_resize_overwrites_nothing_witness :
  let t0 := mkHashTable 0 1%float [[]; []] in
  let t := puts identity_hash t0 [(1, "a"%string)] in
  pairs (buckets_ (Put identity_hash t 2 "b"))
  ≡ₚ pairs (buckets_ (put_pair identity_hash t 2 "b"))
  ∧ keys (Put identity_hash t 2 "b") = keys (put_pair identity_hash t 2 "b")
  ∧ values (Put identity_hash t 2 "b") ≡ₚ values (put_pair identity_hash t 2 "b").
Proof.
  intros t0 t.
  destruct (Put_resize_overwrites_nothing identity_hash t 2 "b")
    as (_ & _ & Hpairs & Hkeys & Hvalues).
  - exists 2, 1%float, t0, [(1, "a"%string)]. split; by_evaluation.
  - by repeat split.
Defined.

(** C10 on a run with an overwriting [Put] and a [Remove]. *)
Lemma stored_pairs_le_size_witness :
  let t0 := mkHashTable 0 0.75%float [[]; []; []; []] in
  let t := run identity_hash t0 [OpPut 1 "a"; OpPut 1 "b"; OpRemove 1; OpPut 2 "c"] in
  Z.of_nat (base.size (keys t)) ≤ Z.of_nat (length (pairs (buckets_ t)))
  ∧ Z.of_nat (length (pairs (buckets_ t))) ≤ size t.
Proof.
  intros t0 t. apply (stored_pairs_le_size identity_hash t).
  exists 4, 0.75%float, t0, [OpPut 1 "a"; OpPut 1 "b"; OpRemove 1; OpPut 2 "c"].
  split; by_evaluation.
Defined.

(** C9, as stated, does not hold: whatever the hash code, no run of [Put]
    calls with distinct keys on a freshly constructed table reaches a resize
    in which two different non-empty old buckets get the same index of the
    new array. *)
Lemma no_resize_collision :
  ¬ ∃ (hash_code : Z → Z) cap lf t0 (kvs : list Pair) key value
      (i j : nat) p r q r',
      HashTable_new cap lf = inr t0
      ∧ NoDup (kvs ++ [(key, value)]).*1
      ∧ load_reached (num_keys_ (puts hash_code t0 kvs) + 1)
                     (capacity (puts hash_code t0 kvs))
                     (load_factor_ (puts hash_code t0 kvs)) = true
      ∧ i ≠ j
      ∧ buckets_ (put_pair hash_code (puts hash_code t0 kvs) key value) !! i
        = Some (p :: r)
      ∧ buckets_ (put_pair hash_code (puts hash_code t0 kvs) key value) !! j
        = Some (q :: r')
      ∧ utils_hash hash_code p.1
          (capacity (puts hash_code t0 kvs) * kGrowthCoefficient)
        = utils_hash hash_code q.1
            (capacity (puts hash_code t0 kvs) * kGrowthCoefficient).
Proof.
  intros (hash_code & cap & lf & t0 & kvs & key & value & i & j & p & r & q & r'
          & Hnew & _ & _ & Hne & Hi & Hj & Heq).
  apply Hne.
  apply (fronts_placed_new_index hash_code _ i j p r q r'
           (put_pair_fronts_placed hash_code _ key value
              (reachable_by_puts_fronts_placed hash_code _
                 (ex_intro _ cap (ex_intro _ lf (ex_intro _ t0
                    (ex_intro _ kvs (conj Hnew eq_refl)))))))
           Hi Hj).
  unfold new_index. rewrite put_pair_length. unfold capacity in Heq. by rewrite Heq.
Qed.

(** With [Remove] in the run a resize can overwrite a bucket: after
    [Remove(1)] the bucket at index 1 starts with key 3, a second pair for
    key 3 is stored at index 3, and the next resize sends both buckets to
    index 3 of the new array, where the later one replaces the earlier. *)
Example Remove_then_resize_overwrites :
  let t0 := mkHashTable 0 1%float [[]; []] in
  let ops := [OpPut 1 "a"; OpPut 3 "b"; OpRemove 1; OpPut 3 "e"] in
  buckets_ (run identity_hash t0 ops) = [[]; [(3, "b"%string)]; []; [(3, "e"%string)]]
  ∧ buckets_ (run identity_hash t0 (ops ++ [OpPut 2 "d"]))
    = [[]; []; [(2, "d"%string)]; [(3, "e"%string)]; []; []; []; []].
Proof. split; by_evaluation. Qed.

(** ** Concrete runs for the lookups after [Put] and [Remove] *)

(** [Put(1, "a")] then [Put(1, "b")] in a table of capacity 4 and load
    factor 1.0: [Search(1)] returns "b". *)
Lemma Put_then_Search_witness :
  let t := puts identity_hash (mkHashTable 0 1%float [[]; []; []; []]) [(1, "a"%string)] in
  Search identity_hash (Put identity_hash t 1 "b") 1 = Some "b"%string
  ∧ ContainsKey identity_hash (Put identity_hash t 1 "b") 1 = true.
Proof.
  intros t. apply (Put_then_Search identity_hash t 1 "b").
  - vm_compute. reflexivity.
  - by_evaluation.
Defined.

(** Keys 1 and 5 share the bucket at index 1 of a table of capacity 4:
    [Put(5, "b")] leaves [Search(1)] as it was. *)
Lemma Put_Search_other_witness :
  let t := puts identity_hash (mkHashTable 0 1%float [[]; []; []; []]) [(1, "a"%string)] in
  Search identity_hash (Put identity_hash t 5 "b") 1 = Search identity_hash t 1.
Proof.
  intros t. apply (Put_Search_other identity_hash t 5 1 "b").
  - lia.
  - by_evaluation.
Defined.

Lemma Remove_then_Search_witness :
  let t := run identity_hash (mkHashTable 0 1%float [[]; []; []; []])
             [OpPut 1 "a"; OpPut 5 "b"] in
  (Remove identity_hash t 5).1 = Search identity_hash t 5
  ∧ Search identity_hash (Remove identity_hash t 5).2 5 = None
  ∧ ContainsKey identity_hash (Remove identity_hash t 5).2 5 = false.
Proof.
  intros t. apply (Remove_then_Search identity_hash t 5).
  exists 4, 1%float, (mkHashTable 0 1%float [[]; []; []; []]), [OpPut 1 "a"; OpPut 5 "b"].
  split; by_evaluation.
Defined.

Lemma Remove_Search_other_witness :
  let t := run identity_hash (mkHashTable 0 1%float [[]; []; []; []])
             [OpPut 1 "a"; OpPut 5 "b"] in
  Search identity_hash (Remove identity_hash t 1).2 5 = Search identity_hash t 5.
Proof.
  intros t. apply (Remove_Search_other identity_hash t 1 5). lia.
Defined.

Lemma Remove_twice_witness :
  let t := run identity_hash (mkHashTable 0 1%float [[]; []; []; []])
             [OpPut 1 "a"; OpPut 5 "b"] in
  Remove identity_hash (Remove identity_hash t 5).2 5
  = (None, (Remove identity_hash t 5).2).
Proof.
  intros t. apply (Remove_twice identity_hash t 5).
  exists 4, 1%float, (mkHashTable 0 1%float [[]; []; []; []]), [OpPut 1 "a"; OpPut 5 "b"].
  split; by_evaluation.
Defined.

Lemma Put_then_Remove_witness :
  let t := puts identity_hash (mkHashTable 0 1%float [[]; []; []; []]) [(1, "a"%string)] in
  Remove identity_hash (Put identity_hash t 5 "b") 5
  = (Some "b"%string,
     {| num_keys_ := num_keys_ t + 1;
        load_factor_ := load_factor_ t;
        buckets_ := buckets_ t |}).
Proof.
  intros t. apply (Put_then_Remove identity_hash t 5 "b").
  - vm_compute. reflexivity.
  - by_evaluation.
  - by_evaluation.
Defined.

(** Keys 1 and 5 share a bucket at capacity 2 and at capacity 4: the
    resizing [Put(5, "b")] keeps key 5 within reach of [Search]. *)
Lemma Put_then_Search_resized_witness :
  let t := puts identity_hash (mkHashTable 0 1%float [[]; []]) [(1, "a"%string)] in
  capacity (Put identity_hash t 5 "b") = 4
  ∧ Search identity_hash (Put identity_hash t 5 "b") 5 = Some "b"%string.
Proof.
  intros t. split; [by_evaluation|].
  apply (Put_then_Search_resized identity_hash t 5 "b").
  - exists 2, 1%float, (mkHashTable 0 1%float [[]; []]), [(1, "a"%string)].
    split; by_evaluation.
  - intros front rest Hbucket. vm_compute in Hbucket.
    injection Hbucket as <- <-. by_evaluation.
Defined.

Lemma empty_iff_no_Put_witness :
  empty (run identity_hash (mkHashTable 0 1%float [[]; []; []; []])
           [OpPut 1 "a"; OpRemove 1]) = false
  ∧ empty (run identity_hash (mkHashTable 0 1%float [[]; []; []; []])
             [OpRemove 1; OpRemove 2]) = true.
Proof.
  pose proof (empty_iff_no_Put identity_hash 4 1%float
                (mkHashTable 0 1%float [[]; []; []; []])
                [OpPut 1 "a"; OpRemove 1] eq_refl) as Hput.
  pose proof (empty_iff_no_Put identity_hash 4 1%float
                (mkHashTable 0 1%float [[]; []; []; []])
                [OpRemove 1; OpRemove 2] eq_refl) as Hnone.
  split.
  - apply not_true_is_false. intros Hempty. apply Hput in Hempty. discriminate Hempty.
  - apply Hnone. reflexivity.
Defined.

Lemma Search_sound_witness :
  let t := run identity_hash (mkHashTable 0 1%float [[]; []; []; []])
             [OpPut 1 "a"; OpPut 5 "b"] in
  ((5, "b"%string) ∈ pairs (buckets_ t) ∧ "b"%string ∈ values t)
  ∧ 5 ∈ keys t.
Proof.
  intros t. destruct (Search_sound identity_hash t 5) as (Hvalue & Hkey).
  split; [apply Hvalue|apply Hkey]; by_evaluation.
Defined.

Lemma stored_pairs_were_put_witness :
  let ops := [OpPut 1 "a"; OpPut 5 "b"; OpRemove 1; OpPut 5 "c"] in
  let t := run identity_hash (mkHashTable 0 1%float [[]; []; []; []]) ops in
  OpPut 5 "c" ∈ ops
  ∧ Search identity_hash t 7 = None ∧ 7 ∉ keys t.
Proof.
  intros ops t.
  destruct (stored_pairs_were_put identity_hash 4 1%float
              (mkHashTable 0 1%float [[]; []; []; []]) ops eq_refl)
    as (_ & Hsearch & Hnever).
  split.
  - apply Hsearch. by_evaluation.
  - apply Hnever. intros value Hin. unfold ops in Hin.
    repeat (apply elem_of_cons in Hin as [Hin|Hin]; [discriminate Hin|]).
    by apply elem_of_nil in Hin.
Defined.

Lemma Search_own_bucket_witness :
  let t := run identity_hash (mkHashTable 0 1%float [[]; []; []; []])
             [OpPut 1 "a"; OpPut 5 "b"] in
  Search identity_hash t 5 = Some "b"%string.
Proof.
  intros t.
  destruct (Search_own_bucket identity_hash t) as (_ & Hfind).
  - exists 4, 1%float, (mkHashTable 0 1%float [[]; []; []; []]), [OpPut 1 "a"; OpPut 5 "b"].
    split; by_evaluation.
  - apply Hfind. by_decision.
Defined.

(** After the resize that moved key 3 behind key 1, key 1 is the first key
    of its bucket and is found. *)
Lemma first_pair_found_witness :
  let t := puts identity_hash (mkHashTable 0 1%float [[]; []])
             [(1, "a"%string); (3, "b"%string)] in
  hash identity_hash t 1 = Z.of_nat 1 ∧ Search identity_hash t 1 = Some "a"%string.
Proof.
  intros t. apply (first_pair_found identity_hash t 1 1 "a" [(3, "b"%string)]).
  - exists 2, 1%float, (mkHashTable 0 1%float [[]; []]), [(1, "a"%string); (3, "b"%string)].
    split; by_evaluation.
  - by_evaluation.
Defined.

Lemma Put_overwrites_in_place_witness :
  let t := puts identity_hash (mkHashTable 0 1%float [[]; []; []; []])
             [(1, "a"%string); (5, "b"%string)] in
  (pairs (buckets_ (Put identity_hash t 1 "c"))).*1 = (pairs (buckets_ t)).*1
  ∧ keys (Put identity_hash t 1 "c") = keys t
  ∧ length (values (Put identity_hash t 1 "c")) = length (values t)
  ∧ size (Put identity_hash t 1 "c") = size t + 1.
Proof.
  intros t. apply (Put_overwrites_in_place identity_hash t 1 "a" "c"); by_evaluation.
Defined.

(** Three [Put] calls and a [Remove] in a table of capacity 8 and load
    factor 1.0: no resize, and [Search] follows the last call on each key. *)
Lemma run_without_resize_witness :
  let t0 := mkHashTable 0 1%float [[]; []; []; []; []; []; []; []] in
  let ops := [OpPut 1 "a"; OpPut 9 "b"; OpPut 1 "c"; OpRemove 9] in
  Search identity_hash (run identity_hash t0 ops) 1 = Some "c"%string
  ∧ Search identity_hash (run identity_hash t0 ops) 9 = None.
Proof.
  intros t0 ops.
  assert (reachable identity_hash t0) as Hreach.
  { exists 8, 1%float, t0, []. split; by_evaluation. }
  split.
  - apply (run_without_resize identity_hash t0 ops 1 Hreach). by_evaluation.
  - apply (run_without_resize identity_hash t0 ops 9 Hreach). by_evaluation.
Defined.

(** The run that loses key 3 to [Search]: [keys()] still reports it. *)
Lemma keys_of_puts_witness :
  let t := puts identity_hash (mkHashTable 0 1%float [[]; []])
             [(1, "a"%string); (3, "b"%string)] in
  keys t = list_to_set [1; 3] ∧ Search identity_hash t 3 = None.
Proof.
  intros t. split; [|by_evaluation].
  apply (keys_of_puts identity_hash 2 1%float (mkHashTable 0 1%float [[]; []])
           [(1, "a"%string); (3, "b"%string)]).
  by_evaluation.
Defined.

Lemma keys_values_spec_witness :
  let t := run identity_hash (mkHashTable 0 1%float [[]; []; []; []])
             [OpPut 1 "a"; OpPut 5 "b"; OpPut 2 "c"] in
  5 ∈ keys t ∧ values t = ["a"; "b"; "c"]%string ∧ length (values t) = 3%nat.
Proof.
  intros t. destruct (keys_values_spec identity_hash t) as (Hkeys & Hvalues & Hlength).
  split; [|split].
  - apply Hkeys. exists [(1, "a"%string); (5, "b"%string)], "b"%string.
    split; by_decision.
  - rewrite Hvalues. by_evaluation.
  - rewrite Hlength. by_evaluation.
Defined.
